(** * Goroutines, channels, WaitGroups and contexts (package goroutines)

    A shallow embedding of the concurrency samples of the package: the
    fan-out and fan-in of [fan_in_out_fetch], [fanout_fetch] and their caller
    [FanOutFanInWithContext]; the WaitGroup samples; the loops that poll a
    context, [cancel_dowork] and [wg_do_work], with
    [CancelableWaitGroupPattern]; and the worker pool of
    [GoroutineswithChannelsAndWaitGroup].

    The goroutines of a program are modelled as an interleaving transition
    system: the state holds the program counter of each goroutine, the
    context, the channels, the WaitGroup counter and the lines printed.  One
    transition is one atomic action of the Go program: a [go] statement, a
    ready case of a [select], a send or receive on a channel, a loop test, a
    [Println].  The transition functions are executable, so schedules can be
    evaluated.  Time is not modelled: a timer fires, a sleep ends, at a
    moment of its own.

    The definitions come first, the proofs after them. *)

From stdpp Require Import base tactics option list strings pretty.

(** ** The part of Go's [context] package the code uses *)

Module GoContext.

(** The two values [ctx.Err()] can take once the context is done. *)
Inductive error := Canceled | DeadlineExceeded.

Definition Error (e : error) : string :=
  match e with
  | Canceled => "context canceled"
  | DeadlineExceeded => "context deadline exceeded"
  end.

(** A context is its [Err()] value: [None] while [Done()] is still open,
    [Some e] once it is closed. *)
Definition t := option error.

(** A context as [context.WithTimeout] (or [WithCancel]) returns it: not
    done yet. *)
Definition WithTimeout : t := None.

(** Cancellation with cause [e]: the cancel function called ([Canceled]) or
    the deadline timer firing ([DeadlineExceeded]).  As in the library, a
    context that already has an error is left alone. *)
Definition cancel (e : error) (c : t) : t :=
  match c with
  | Some _ => c
  | None => Some e
  end.

End GoContext.

(** ** [fan_in_out_fetch] *)

(** The two cases of the [select] in [fan_in_out_fetch]. *)
Inductive select_case :=
  | AfterDelay   (* case <-time.After(delay) *)
  | CtxDone.     (* case <-ctx.Done() *)

(** The success payload for an item. *)
Definition data_from (url : string) : string := "Data from " +:+ url.

(** [fan_in_out_fetch ctx url] when the select takes [branch]; [None] when
    that case is not ready ([ctx.Done()] still open).  The timer of
    [time.After(delay)], with [delay] drawn from [rand.Intn(5)] seconds,
    fires at a moment of its own: that is the nondeterminism of the
    schedule, not a value the result depends on. *)
Definition fan_in_out_fetch (ctx : GoContext.t) (branch : select_case)
    (url : string) : option (string * option GoContext.error) :=
  match branch with
  | AfterDelay => Some (data_from url, None)
  | CtxDone =>
      match ctx with
      | Some err => Some (""%string, Some err)
      | None => None
      end
  end.

(** ** The goroutines of [fanout_fetch] *)

(** A worker goroutine [go func(u string) {...}(url)]. *)
Inductive worker_pc :=
  | WFetch                  (* in fan_in_out_fetch, blocked in its select *)
  | WSend (data : string)   (* err == nil; blocked at  resultCh <- data *)
  | WFailed                 (* err != nil; printed the error and returned *)
  | WSent.                  (* resultCh <- data done; the goroutine ended *)

#[global] Instance worker_pc_eq_dec : EqDecision worker_pc.
Proof. solve_decision. Defined.

(** The goroutine started by [fanout_fetch] itself. *)
Inductive agg_pc :=
  | AFanOut (rest : list string)   (* for _, url := range urls, [rest] to go *)
  | ASelect (i : nat)              (* at the fan-in loop test, then select *)
  | AOut (i : nat) (result : string) (* blocked at  out <- result *)
  | AReturned.                     (* returned; deferred close(out) has run *)

(** The caller of [fanout_fetch], in its loop
    [for data := range out { fmt.Println("Result:", data) }]. *)
Inductive consumer_pc :=
  | CRange                    (* blocked at the receive of  range out *)
  | CPrintln (data : string)  (* received [data]; about to print it *)
  | CEnded.                   (* [out] was found closed: the loop is over *)

Record state := State {
  ctx : GoContext.t;
  workers : list (string * worker_pc); (* in spawn order, with their [u] *)
  agg : agg_pc;
  consumer : consumer_pc;
  out : list string;      (* what the consumer has received from [out] *)
  closes : nat;           (* how many times close(out) was executed *)
  stdout : list string;   (* lines printed by fmt.Println *)
}.

(** The atomic actions. *)
Inductive label :=
  | CtxCancel (e : GoContext.error) (* cancel() called / deadline fires *)
  | GoWorker                 (* one iteration of the fan-out loop *)
  | FanInStart               (* fan-out loop over; i := 0 *)
  | Fetch (k : nat) (b : select_case) (* worker k leaves fan_in_out_fetch *)
  | ResultCh (k : nat)       (* worker k sends, the aggregator receives *)
  | AggDone                  (* the aggregator's select takes <-ctx.Done() *)
  | Out                      (* out <- result meets the consumer's range *)
  | LoopEnd                  (* i < len(urls) is false: return, close(out) *)
  | Println                  (* the consumer prints what it received *)
  | RangeEnd.                (* the consumer's range finds [out] closed *)

(** [fanout_fetch ctx urls]: the state when the call returns.  [out] is made,
    the aggregator goroutine is started, nothing else has happened; the
    caller, who now holds [out], is about to range over it. *)
Definition fanout_fetch (c : GoContext.t) (urls : list string) : state :=
  State c [] (AFanOut urls) CRange [] 0 [].

(** Goroutines started by the dispatch so far: the aggregator, started by
    [fanout_fetch] before it returns, and one per entry of [workers]. *)
Definition goroutines (s : state) : nat := S (length (workers s)).

(** The number of workers a dispatch runs at once: one goroutine per url.
    [fanout_fetch] has no other concurrency setting. *)
Definition concurrency (urls : list string) : nat := length urls.

Section Dispatch.

(** The slice captured by the closures of [fanout_fetch]. *)
Variable urls : list string.

(** One action of one goroutine.  [resultCh] and [out] are unbuffered: a
    send and the receive it meets are one action, enabled when both sides
    stand at it.  A [Println] belongs to the goroutine that calls it: the
    worker and the aggregator print on their way out, the consumer prints
    in a step of its own after it has received. *)
Definition exec (l : label) (s : state) : option state :=
  match l with
  | CtxCancel e =>
      Some (State (GoContext.cancel e (ctx s)) (workers s) (agg s)
              (consumer s) (out s) (closes s) (stdout s))
  | GoWorker =>
      match agg s with
      | AFanOut (u :: rest) =>
          Some (State (ctx s) (workers s ++ [(u, WFetch)]) (AFanOut rest)
                  (consumer s) (out s) (closes s) (stdout s))
      | _ => None
      end
  | FanInStart =>
      match agg s with
      | AFanOut [] =>
          Some (State (ctx s) (workers s) (ASelect 0) (consumer s) (out s)
                  (closes s) (stdout s))
      | _ => None
      end
  | Fetch k b =>
      match workers s !! k with
      | Some (u, WFetch) =>
          match fan_in_out_fetch (ctx s) b u with
          | Some (data, None) =>
              Some (State (ctx s) (<[k := (u, WSend data)]> (workers s))
                      (agg s) (consumer s) (out s) (closes s) (stdout s))
          | Some (_, Some err) =>
              Some (State (ctx s) (<[k := (u, WFailed)]> (workers s))
                      (agg s) (consumer s) (out s) (closes s)
                      (stdout s ++ ["error: " +:+ GoContext.Error err]))
          | None => None
          end
      | _ => None
      end
  | ResultCh k =>
      match workers s !! k, agg s with
      | Some (u, WSend data), ASelect i =>
          if decide (i < length urls) then
            Some (State (ctx s) (<[k := (u, WSent)]> (workers s))
                    (AOut i data) (consumer s) (out s) (closes s) (stdout s))
          else None
      | _, _ => None
      end
  | AggDone =>
      match agg s, ctx s with
      | ASelect i, Some err =>
          if decide (i < length urls) then
            Some (State (ctx s) (workers s) AReturned (consumer s) (out s)
                    (S (closes s))
                    (stdout s ++ ["Cancelled: " +:+ GoContext.Error err]))
          else None
      | _, _ => None
      end
  | Out =>
      match agg s, consumer s with
      | AOut i result, CRange =>
          Some (State (ctx s) (workers s) (ASelect (S i)) (CPrintln result)
                  (out s ++ [result]) (closes s) (stdout s))
      | _, _ => None
      end
  | LoopEnd =>
      match agg s with
      | ASelect i =>
          if decide (i < length urls) then None
          else
            Some (State (ctx s) (workers s) AReturned (consumer s) (out s)
                    (S (closes s)) (stdout s))
      | _ => None
      end
  | Println =>
      match consumer s with
      | CPrintln data =>
          Some (State (ctx s) (workers s) (agg s) CRange (out s) (closes s)
                  (stdout s ++ ["Result: " +:+ data]))
      | _ => None
      end
  | RangeEnd =>
      match consumer s, closes s with
      | CRange, S _ =>
          Some (State (ctx s) (workers s) (agg s) CEnded (out s) (closes s)
                  (stdout s))
      | _, _ => None
      end
  end.

(** Running a schedule; [None] as soon as an action is not enabled. *)
Fixpoint run (sched : list label) (s : state) : option state :=
  match sched with
  | [] => Some s
  | l :: sched' =>
      match exec l s with
      | Some s' => run sched' s'
      | None => None
      end
  end.

End Dispatch.

(** The dispatch of [FanOutFanInWithContext]: a context from
    [context.WithTimeout(context.Background(), 3*time.Second)] and four urls. *)
Definition FanOutFanInWithContext_urls : list string :=
  ["a.com"; "b.com"; "c.com"; "d.com"]%string.

Definition FanOutFanInWithContext : state :=
  fanout_fetch GoContext.WithTimeout FanOutFanInWithContext_urls.

(** Two schedules of [FanOutFanInWithContext]: one in which the deadline does
    not fire before the end, one in which it fires after the first result.
    In the first the last result is printed after [out] was closed; in the
    second the one result is printed after the aggregator's [Cancelled:]
    line. *)
Definition sched_all : list label :=
  [GoWorker; GoWorker; GoWorker; GoWorker; FanInStart;
   Fetch 2 AfterDelay; ResultCh 2; Out; Fetch 0 AfterDelay; Println;
   Fetch 1 AfterDelay; ResultCh 0; Out; Fetch 3 AfterDelay; ResultCh 1;
   Println; Out; ResultCh 3; Println; Out; LoopEnd; Println; RangeEnd].

Definition state_all : state :=
  State None
    [("a.com", WSent); ("b.com", WSent); ("c.com", WSent);
     ("d.com", WSent)]%string
    AReturned
    CEnded
    ["Data from c.com"; "Data from a.com"; "Data from b.com";
     "Data from d.com"]%string
    1
    ["Result: Data from c.com"; "Result: Data from a.com";
     "Result: Data from b.com"; "Result: Data from d.com"]%string.

Definition sched_timeout : list label :=
  [GoWorker; GoWorker; GoWorker; GoWorker; FanInStart;
   Fetch 1 AfterDelay; ResultCh 1; Out; Fetch 0 AfterDelay;
   CtxCancel GoContext.DeadlineExceeded; Fetch 2 CtxDone; AggDone;
   Println; Fetch 3 CtxDone; RangeEnd].

Definition state_timeout : state :=
  State (Some GoContext.DeadlineExceeded)
    [("a.com", WSend "Data from a.com"); ("b.com", WSent);
     ("c.com", WFailed); ("d.com", WFailed)]%string
    AReturned
    CEnded
    ["Data from b.com"]%string
    1
    ["error: context deadline exceeded";
     "Cancelled: context deadline exceeded";
     "Result: Data from b.com";
     "error: context deadline exceeded"]%string.

(** ** Bookkeeping on the worker list *)

(** What the aggregator holds between [<-resultCh] and [out <- result]. *)
Definition in_hand (a : agg_pc) : list string :=
  match a with
  | AOut _ result => [result]
  | _ => []
  end.

(** What a worker has handed over on [resultCh]. *)
Definition sent_by (w : string * worker_pc) : list string :=
  match w.2 with
  | WSent => [data_from w.1]
  | _ => []
  end.

(** Work a goroutine still has in front of it, as a number that every
    action lowers. *)
Definition worker_todo (w : string * worker_pc) : nat :=
  match w.2 with
  | WFetch => 3
  | WSend _ => 2
  | WFailed | WSent => 0
  end.

(** At [AOut i _] the aggregator has its send in front of it, and then what
    it has at [ASelect (S i)]. *)
Definition agg_todo (n : nat) (a : agg_pc) : nat :=
  match a with
  | AFanOut rest => 4 * length rest + 2 * n + 2
  | ASelect i => 2 * (n - i) + 1
  | AOut i _ => 2 * (n - S i) + 4
  | AReturned => 0
  end.

Definition consumer_todo (p : consumer_pc) : nat :=
  match p with
  | CRange => 1
  | CPrintln _ => 2
  | CEnded => 0
  end.

Definition todo (urls : list string) (s : state) : nat :=
  (match ctx s with Some _ => 0 | None => 1 end)
  + agg_todo (length urls) (agg s)
  + sum_list (worker_todo <$> workers s)
  + consumer_todo (consumer s).

(** The actions of a schedule that are steps of a goroutine of the program,
    not cancellations of the context. *)
Definition own_action (l : label) : nat :=
  match l with
  | CtxCancel _ => 0
  | _ => 1
  end.

Definition own_actions (sched : list label) : nat :=
  sum_list (own_action <$> sched).

(** ** The invariant of a dispatch *)

(** A worker about to send holds the payload of its own url; a worker that
    failed did so because the context was done, and has printed the error. *)
Definition worker_ok (c : GoContext.t) (lines : list string)
    (w : string * worker_pc) : Prop :=
  match w.2 with
  | WSend data => data = data_from w.1
  | WFailed =>
      ∃ err, c = Some err ∧ ("error: " +:+ GoContext.Error err) ∈ lines
  | WFetch | WSent => True
  end.

(** Where the aggregator stands, against the workers, [out] and its close. *)
Definition agg_ok (urls : list string) (s : state) : Prop :=
  match agg s with
  | AFanOut rest =>
      (workers s).*1 ++ rest = urls ∧ out s = [] ∧ closes s = 0
  | ASelect i =>
      (workers s).*1 = urls ∧ length (out s) = i ∧ closes s = 0
  | AOut i _ =>
      (workers s).*1 = urls ∧ length (out s) = i ∧ i < length urls
      ∧ closes s = 0
  | AReturned =>
      (workers s).*1 = urls ∧ closes s = 1
      ∧ (length (out s) = length urls
         ∨ (is_Some (ctx s) ∧ length (out s) < length urls))
  end.

(** The consumer leaves its loop only when [out] has been closed. *)
Definition consumer_ok (s : state) : Prop :=
  consumer s = CEnded → closes s = 1.

Record inv (urls : list string) (s : state) : Prop := Inv {
  inv_agg : agg_ok urls s;
  inv_results : out s ++ in_hand (agg s) ≡ₚ workers s ≫= sent_by;
  inv_workers : Forall (worker_ok (ctx s) (stdout s)) (workers s);
  inv_consumer : consumer_ok s;
}.

(** ** Statements of the specification, as written *)

(** C1 as the specification has it: whatever happens, a stream that has
    closed has emitted as many results as there are items. *)
Definition emits_one_result_per_item (urls : list string) (c : GoContext.t)
    : Prop :=
  ∀ sched s,
    run urls sched (fanout_fetch c urls) = Some s →
    closes s = 1 → length (out s) = length urls.

(** The second half of C2 as the specification has it: at the close every
    item that did not complete has been given a result of its own (a
    cancelled one), next to the results of the items that did. *)
Definition remaining_flushed (s : state) : Prop :=
  length (out s)
  = length (workers s ≫= sent_by)
    + length (filter (λ w, w.2 ≠ WSent) (workers s)).


(** C5 as the specification has it, read on [fanout_fetch]: a dispatch
    whose concurrency is not positive starts no goroutine. *)
Definition rejected_before_any_goroutine (urls : list string)
    (c : GoContext.t) : Prop :=
  concurrency urls ≤ 0 → goroutines (fanout_fetch c urls) = 0.

(** C6 as the specification has it, in its two halves.  First: once the
    context is done the aggregator's select does not take a worker's
    result. *)
Definition cancellation_takes_precedence (urls : list string)
    (c : GoContext.t) : Prop :=
  ∀ sched s k,
    run urls sched (fanout_fetch c urls) = Some s →
    is_Some (ctx s) → exec urls (ResultCh k) s = None.

(** Second: a result that a worker held while the context was not yet done
    is in the stream when the stream closes. *)
Definition produced_results_delivered (urls : list string)
    (c : GoContext.t) : Prop :=
  ∀ sched s k u data sched' s',
    run urls sched (fanout_fetch c urls) = Some s →
    ctx s = None → workers s !! k = Some (u, WSend data) →
    run urls sched' s = Some s' → closes s' = 1 → data ∈ out s'.

(** ** What a dispatch prints *)

(** The line the consumer prints for a result. *)
Definition result_line (result : string) : string := "Result: " +:+ result.

(** What the consumer has received and not printed yet. *)
Definition to_print (p : consumer_pc) : list string :=
  match p with
  | CPrintln data => [data]
  | _ => []
  end.

Definition failed (w : string * worker_pc) : nat :=
  match w.2 with
  | WFailed => 1
  | _ => 0
  end.

(** How many workers have returned on an error. *)
Definition failures (ws : list (string * worker_pc)) : nat :=
  sum_list (failed <$> ws).

(** 1 when the aggregator has left its loop through [<-ctx.Done()]. *)
Definition cancelled_line (urls : list string) (s : state) : nat :=
  match agg s with
  | AReturned => if decide (length (out s) < length urls) then 1 else 0
  | _ => 0
  end.

(** A line is the report of a delivered result, or names the error of the
    context. *)
Definition line_ok (s : state) (line : string) : Prop :=
  (∃ result, result ∈ out s ∧ line = result_line result)
  ∨ ∃ err, ctx s = Some err
           ∧ (line = "error: " +:+ GoContext.Error err
              ∨ line = "Cancelled: " +:+ GoContext.Error err).

(** The printed lines against the stream.  The consumer prints a result in
    a step of its own, after it has received it: the line of the last result
    may still be to come when other goroutines print theirs. *)
Record inv_stdout (urls : list string) (s : state) : Prop := InvStdout {
  lines_count :
    length (stdout s) + length (to_print (consumer s))
    = length (out s) + failures (workers s) + cancelled_line urls s;
  lines_ok : Forall (line_ok s) (stdout s);
  lines_pending :
    ∀ data, consumer s = CPrintln data → last (out s) = Some data;
  lines_results :
    result_line <$> out s
      `sublist_of` stdout s ++ (result_line <$> to_print (consumer s));
  lines_quiet :
    ctx s = None →
    stdout s ++ (result_line <$> to_print (consumer s))
    = result_line <$> out s;
}.

(** A run of [FanOutFanInWithContext] in which the deadline fires while the
    consumer has the third result in hand: the aggregator prints its
    [Cancelled:] line and closes [out] before the consumer prints. *)
Definition sched_late_print : list label :=
  [GoWorker; GoWorker; GoWorker; GoWorker; FanInStart;
   Fetch 0 AfterDelay; ResultCh 0; Out; Println; Fetch 3 AfterDelay;
   ResultCh 3; Out; Println; Fetch 2 AfterDelay; ResultCh 2; Out;
   CtxCancel GoContext.DeadlineExceeded; AggDone; Println; RangeEnd].

Definition state_late_print : state :=
  State (Some GoContext.DeadlineExceeded)
    [("a.com", WSent); ("b.com", WFetch); ("c.com", WSent);
     ("d.com", WSent)]%string
    AReturned
    CEnded
    ["Data from a.com"; "Data from d.com"; "Data from c.com"]%string
    1
    ["Result: Data from a.com"; "Result: Data from d.com";
     "Cancelled: context deadline exceeded";
     "Result: Data from c.com"]%string.

(** * The WaitGroup samples *)

(** Running a schedule of any of the transition functions below. *)
Fixpoint run_with {S L : Type} (step : L → S → option S) (sched : list L)
    (s : S) : option S :=
  match sched with
  | [] => Some s
  | l :: sched' =>
      match step l s with
      | Some s' => run_with step sched' s'
      | None => None
      end
  end.

(** ** The part of [sync.WaitGroup] the code uses: its counter *)

Module WaitGroup.

(** [wg.Add(delta)]; [None] is the panic of a counter that goes negative. *)
Definition Add (delta counter : Z) : option Z :=
  if decide (0 ≤ counter + delta)%Z then Some (counter + delta)%Z else None.

(** [wg.Done()] is [wg.Add(-1)]. *)
Definition Done (counter : Z) : option Z := Add (-1) counter.

(** [wg.Wait()] returns when the counter is zero, and blocks otherwise. *)
Definition Wait (counter : Z) : bool := bool_decide (counter = 0%Z).

End WaitGroup.

(** ** Start the workers, wait for them, print a last line

    [WaitGroupSampleOne], [WaitingForMultipleGoRoutinesToFinish] and
    [WgProcessMultipleFileExample] are one program up to the lines their
    workers print: a loop that does [wg.Add(1)] and starts a goroutine per
    item, then [wg.Wait()], then one [Println].  A worker prints its lines
    and, returning, runs its deferred [wg.Done()].  The sleeps of the workers
    take time and do nothing else; they are not actions here. *)

(** The lines of the worker bodies. *)

(** The closure of [WaitGroupSampleOne]. *)
Definition sample_one_worker (id : nat) : list string :=
  ["Worker " +:+ pretty id +:+ " done"].

Definition wg_worker (id : nat) : list string :=
  ["Worker " +:+ pretty id +:+ " starting";
   "Worker " +:+ pretty id +:+ " done"].

Definition wg_process_file (file : string) : list string :=
  ["Processing " +:+ file; "Done with " +:+ file].

(** A worker goroutine: about to print line [n] of its body, or, past the
    last line, about to run the deferred [wg.Done()]; or ended. *)
Inductive task_pc :=
  | At (n : nat)
  | Ended.

(** The function that starts the workers. *)
Inductive wait_pc :=
  | WgAdd (rest : list (list string))   (* loop head, then wg.Add(1) *)
  | WgGo (body : list string) (rest : list (list string)) (* go ... *)
  | WgWait                              (* wg.Wait() *)
  | WgPrint                             (* the last Println *)
  | WgEnd.

Record wg_state := WgState {
  wg_counter : Z;
  wg_panicked : bool;
  wg_main : wait_pc;
  wg_workers : list (list string * task_pc);  (* body and position *)
  wg_stdout : list string;
}.

Inductive wg_label :=
  | WgMain
  | WgWorker (k : nat).

(** The state in which the function is entered: [var wg sync.WaitGroup]. *)
Definition wg_start (bodies : list (list string)) : wg_state :=
  WgState 0 false (WgAdd bodies) [] [].

Definition wg_exec (final : string) (l : wg_label) (s : wg_state)
    : option wg_state :=
  if wg_panicked s then None
  else
    match l with
    | WgMain =>
        match wg_main s with
        | WgAdd (body :: rest) =>
            match WaitGroup.Add 1 (wg_counter s) with
            | Some n =>
                Some (WgState n false (WgGo body rest) (wg_workers s)
                        (wg_stdout s))
            | None =>
                Some (WgState (wg_counter s) true (wg_main s) (wg_workers s)
                        (wg_stdout s))
            end
        | WgAdd [] =>
            Some (WgState (wg_counter s) false WgWait (wg_workers s)
                    (wg_stdout s))
        | WgGo body rest =>
            Some (WgState (wg_counter s) false (WgAdd rest)
                    (wg_workers s ++ [(body, At 0)]) (wg_stdout s))
        | WgWait =>
            if WaitGroup.Wait (wg_counter s) then
              Some (WgState (wg_counter s) false WgPrint (wg_workers s)
                      (wg_stdout s))
            else None
        | WgPrint =>
            Some (WgState (wg_counter s) false WgEnd (wg_workers s)
                    (wg_stdout s ++ [final]))
        | WgEnd => None
        end
    | WgWorker k =>
        match wg_workers s !! k with
        | Some (body, At n) =>
            match body !! n with
            | Some line =>
                Some (WgState (wg_counter s) false (wg_main s)
                        (<[k := (body, At (S n))]> (wg_workers s))
                        (wg_stdout s ++ [line]))
            | None =>
                match WaitGroup.Done (wg_counter s) with
                | Some n' =>
                    Some (WgState n' false (wg_main s)
                            (<[k := (body, Ended)]> (wg_workers s))
                            (wg_stdout s))
                | None =>
                    Some (WgState (wg_counter s) true (wg_main s)
                            (wg_workers s) (wg_stdout s))
                end
            end
        | _ => None
        end
    end.

(** The three programs: the bodies of their workers and their last line. *)
Definition WaitGroupSampleOne : list (list string) * string :=
  (sample_one_worker <$> [1; 2; 3], "All workers done!"%string).

Definition WaitingForMultipleGoRoutinesToFinish
    : list (list string) * string :=
  (wg_worker <$> [1; 2; 3], "::: All workers Finished :::"%string).

Definition WgProcessMultipleFileExample : list (list string) * string :=
  (wg_process_file <$> ["a.txt"; "b.txt"; "c.txt"]%string,
   "Finished processing all files."%string).

(** A schedule of [WgProcessMultipleFileExample], and the state it ends
    in. *)
Definition sched_files : list wg_label :=
  [WgMain; WgMain; WgWorker 0; WgMain; WgMain; WgWorker 1; WgWorker 0;
   WgMain; WgMain; WgMain; WgWorker 2; WgWorker 2; WgWorker 1; WgWorker 0;
   WgWorker 1; WgWorker 2; WgMain; WgMain].

Definition state_files : wg_state :=
  WgState 0 false WgEnd
    [(["Processing a.txt"; "Done with a.txt"], Ended);
     (["Processing b.txt"; "Done with b.txt"], Ended);
     (["Processing c.txt"; "Done with c.txt"], Ended)]%string
    ["Processing a.txt"; "Processing b.txt"; "Done with a.txt";
     "Processing c.txt"; "Done with c.txt"; "Done with b.txt";
     "Finished processing all files."]%string.

(** Bookkeeping: what a worker has printed, whether it still holds the
    counter, what the starting function has added to the counter for a
    worker not yet started, and what it has printed. *)
Definition printed (w : list string * task_pc) : list string :=
  match w.2 with
  | At n => take n w.1
  | Ended => w.1
  end.

Definition live (w : list string * task_pc) : nat :=
  match w.2 with
  | At _ => 1
  | Ended => 0
  end.

Definition pending (m : wait_pc) : nat :=
  match m with
  | WgGo _ _ => 1
  | _ => 0
  end.

Definition last_line (final : string) (m : wait_pc) : list string :=
  match m with
  | WgEnd => [final]
  | _ => []
  end.

Definition wg_task_todo (w : list string * task_pc) : nat :=
  match w.2 with
  | At n => S (length w.1 - n)
  | Ended => 0
  end.

Definition wg_main_todo (m : wait_pc) : nat :=
  match m with
  | WgAdd rest => sum_list ((λ body, length body + 3) <$> rest) + 3
  | WgGo body rest =>
      length body + 2 + sum_list ((λ body, length body + 3) <$> rest) + 3
  | WgWait => 2
  | WgPrint => 1
  | WgEnd => 0
  end.

Definition wg_todo (s : wg_state) : nat :=
  wg_main_todo (wg_main s) + sum_list (wg_task_todo <$> wg_workers s).

Definition wg_main_ok (bodies : list (list string)) (s : wg_state) : Prop :=
  match wg_main s with
  | WgAdd rest => (wg_workers s).*1 ++ rest = bodies
  | WgGo body rest => (wg_workers s).*1 ++ body :: rest = bodies
  | WgWait => (wg_workers s).*1 = bodies
  | WgPrint | WgEnd =>
      (wg_workers s).*1 = bodies ∧ Forall (λ w, w.2 = Ended) (wg_workers s)
  end.

Record wg_inv (bodies : list (list string)) (final : string)
    (s : wg_state) : Prop := WgInv {
  wgi_main : wg_main_ok bodies s;
  wgi_counter :
    wg_counter s
    = Z.of_nat (sum_list (live <$> wg_workers s) + pending (wg_main s));
  wgi_panicked : wg_panicked s = false;
  wgi_stdout :
    ∃ lines,
      wg_stdout s = lines ++ last_line final (wg_main s)
      ∧ lines ≡ₚ wg_workers s ≫= printed
      ∧ Forall (λ w, printed w `sublist_of` lines) (wg_workers s);
}.

(** * Loops that poll the context *)

(** [cancel_dowork] and [wg_do_work] are the same loop,
    [for { select { case <-ctx.Done(): ...; return; default: ... } }],
    with their own two lines.  [cancel_dowork] also sleeps in its default
    case, which takes time and does nothing else. *)
Record poller := Poller {
  working : string;                   (* the line of the default case *)
  cancelled : GoContext.t → string;   (* the line of the Done case *)
}.

(** How [fmt.Println] shows [ctx.Err()]. *)
Definition err_text (c : GoContext.t) : string :=
  match c with
  | Some err => GoContext.Error err
  | None => "<nil>"
  end.

Definition cancel_dowork : poller :=
  Poller "doing cancel_dowork..."
    (λ c, "cancel_dowork cancelled: " +:+ err_text c).

Definition wg_do_work : poller :=
  Poller "Working..." (λ _, "Goroutine canceled."%string).

Inductive poll_pc :=
  | PSelect     (* at the select *)
  | PDefault    (* in the default case, about to print *)
  | PDone       (* in the Done case, about to print *)
  | PReturned.  (* after return *)

(** One action of the loop, with what it prints; [None] after the return.
    A select with a default case takes the Done case when [ctx.Done()] is
    closed and the default case otherwise. *)
Definition poll (p : poller) (c : GoContext.t) (pc : poll_pc)
    : option (poll_pc * list string) :=
  match pc with
  | PSelect =>
      match c with
      | Some _ => Some (PDone, [])
      | None => Some (PDefault, [])
      end
  | PDefault => Some (PSelect, [working p])
  | PDone => Some (PReturned, [cancelled p c])
  | PReturned => None
  end.

(** The actions the loop has in front of it once the context is done. *)
Definition poll_todo (pc : poll_pc) : nat :=
  match pc with
  | PDefault => 3
  | PSelect => 2
  | PDone => 1
  | PReturned => 0
  end.

(** ** The loop next to whoever cancels its context *)

Record poll_state := PollState {
  poll_ctx : GoContext.t;
  poll_at : poll_pc;
  poll_stdout : list string;
}.

Inductive poll_label :=
  | PollCancel (e : GoContext.error)   (* cancel() called / deadline fires *)
  | PollStep.                          (* the loop acts *)

Definition poll_exec (p : poller) (l : poll_label) (s : poll_state)
    : option poll_state :=
  match l with
  | PollCancel e =>
      Some (PollState (GoContext.cancel e (poll_ctx s)) (poll_at s)
              (poll_stdout s))
  | PollStep =>
      match poll p (poll_ctx s) (poll_at s) with
      | Some (pc, lines) =>
          Some (PollState (poll_ctx s) pc (poll_stdout s ++ lines))
      | None => None
      end
  end.

(** The loop entered with context [c]. *)
Definition poll_start (c : GoContext.t) : poll_state :=
  PollState c PSelect [].

(** How many actions of the loop a schedule holds. *)
Definition poll_steps (sched : list poll_label) : nat :=
  sum_list ((λ l, match l with PollStep => 1 | PollCancel _ => 0 end)
              <$> sched).

(** What the loop has printed when it has gone [n] times through its
    default case. *)
Definition poll_lines (p : poller) (n : nat) (s : poll_state)
    : list string :=
  replicate n (working p)
  ++ match poll_at s with
     | PReturned => [cancelled p (poll_ctx s)]
     | _ => []
     end.

(** The invariant of the loop: it has printed its working line some number
    of times and then, returning, its other line; and it is in its Done case
    or past it only when the context is done. *)
Definition poll_ok (p : poller) (s : poll_state) : Prop :=
  (∃ n, poll_stdout s = poll_lines p n s)
  ∧ match poll_at s with
    | PDone | PReturned => is_Some (poll_ctx s)
    | PSelect | PDefault => True
    end.

(** ** [CancelableWaitGroupPattern] *)

Inductive cancelable_pc :=
  | CAdd      (* wg.Add(1) *)
  | CGo       (* go wg_do_work(ctx, &wg) *)
  | CCancel   (* cancel() *)
  | CWait     (* wg.Wait() *)
  | CPrint    (* fmt.Println("::: Done :::") *)
  | CEnd.

(** The goroutine of [wg_do_work]: not started, in the loop, or ended, its
    deferred [wg.Done()] run. *)
Inductive do_work_pc :=
  | NotStarted
  | InLoop (pc : poll_pc)
  | Finished.

Record cancelable_state := CancelableState {
  c_ctx : GoContext.t;
  c_counter : Z;
  c_panicked : bool;
  c_main : cancelable_pc;
  c_worker : do_work_pc;
  c_stdout : list string;
}.

Inductive cancelable_label :=
  | CMain
  | CWorker.

(** [context.WithCancel(context.Background())] and [var wg]. *)
Definition CancelableWaitGroupPattern : cancelable_state :=
  CancelableState None 0 false CAdd NotStarted [].

Definition cancelable_exec (l : cancelable_label) (s : cancelable_state)
    : option cancelable_state :=
  if c_panicked s then None
  else
    match l with
    | CMain =>
        match c_main s with
        | CAdd =>
            match WaitGroup.Add 1 (c_counter s) with
            | Some n =>
                Some (CancelableState (c_ctx s) n false CGo (c_worker s)
                        (c_stdout s))
            | None =>
                Some (CancelableState (c_ctx s) (c_counter s) true CAdd
                        (c_worker s) (c_stdout s))
            end
        | CGo =>
            Some (CancelableState (c_ctx s) (c_counter s) false CCancel
                    (InLoop PSelect) (c_stdout s))
        | CCancel =>
            Some (CancelableState
                    (GoContext.cancel GoContext.Canceled (c_ctx s))
                    (c_counter s) false CWait (c_worker s) (c_stdout s))
        | CWait =>
            if WaitGroup.Wait (c_counter s) then
              Some (CancelableState (c_ctx s) (c_counter s) false CPrint
                      (c_worker s) (c_stdout s))
            else None
        | CPrint =>
            Some (CancelableState (c_ctx s) (c_counter s) false CEnd
                    (c_worker s) (c_stdout s ++ ["::: Done :::"%string]))
        | CEnd => None
        end
    | CWorker =>
        match c_worker s with
        | InLoop pc =>
            match poll wg_do_work (c_ctx s) pc with
            | Some (pc', lines) =>
                Some (CancelableState (c_ctx s) (c_counter s) false
                        (c_main s) (InLoop pc') (c_stdout s ++ lines))
            | None =>
                match WaitGroup.Done (c_counter s) with
                | Some n =>
                    Some (CancelableState (c_ctx s) n false (c_main s)
                            Finished (c_stdout s))
                | None =>
                    Some (CancelableState (c_ctx s) (c_counter s) true
                            (c_main s) (c_worker s) (c_stdout s))
                end
            end
        | NotStarted | Finished => None
        end
    end.

(** The lines after the [Working...] lines. *)
Definition cancelable_tail (s : cancelable_state) : list string :=
  match c_worker s with
  | InLoop PReturned | Finished => ["Goroutine canceled."%string]
  | _ => []
  end
  ++ match c_main s with
     | CEnd => ["::: Done :::"%string]
     | _ => []
     end.

Definition cancelable_todo (s : cancelable_state) : nat :=
  match c_main s with
  | CAdd => 5 | CGo => 4 | CCancel => 3 | CWait => 2 | CPrint => 1
  | CEnd => 0
  end
  + match c_worker s with
    | NotStarted => 5
    | InLoop pc => S (poll_todo pc)
    | Finished => 0
    end.

Record cancelable_inv (s : cancelable_state) : Prop := CancelableInv {
  ci_panicked : c_panicked s = false;
  ci_counter :
    c_counter s
    = match c_main s, c_worker s with
      | CAdd, _ => 0%Z
      | _, Finished => 0%Z
      | _, _ => 1%Z
      end;
  ci_worker :
    match c_main s with
    | CAdd | CGo => c_worker s = NotStarted ∧ c_ctx s = None
    | CCancel => c_worker s ≠ NotStarted ∧ c_ctx s = None
    | CWait => c_worker s ≠ NotStarted ∧ c_ctx s = Some GoContext.Canceled
    | CPrint | CEnd =>
        c_worker s = Finished ∧ c_ctx s = Some GoContext.Canceled
    end;
  ci_done :
    match c_worker s with
    | InLoop PDone | InLoop PReturned | Finished => is_Some (c_ctx s)
    | _ => True
    end;
  ci_stdout : ∃ n, c_stdout s = replicate n "Working..."%string
                                ++ cancelable_tail s;
}.

(** * [GoroutineswithChannelsAndWaitGroup] *)

(** The constants of the function: [numWorkers], the capacity of [jobs] and
    the number of jobs sent. *)
Record pool := Pool {
  numWorkers : nat;
  capacity : nat;
  numJobs : nat;
}.

Definition GoroutineswithChannelsAndWaitGroup : pool := Pool 3 5 5.

(** The lines the program prints, and their text. *)
Inductive job_line :=
  | StartedJob (id j : nat)
  | FinishedJob (id j : nat)
  | AllJobsDone.

Definition job_text (line : job_line) : string :=
  match line with
  | StartedJob id j =>
      "Worker " +:+ pretty id +:+ " started job " +:+ pretty j
  | FinishedJob id j =>
      "Worker " +:+ pretty id +:+ " finished job " +:+ pretty j
  | AllJobsDone => "All jobs done"
  end.

(** A goroutine of [wg_worker_fan_out]. *)
Inductive fan_out_pc :=
  | JRecv            (* at  for j := range jobs *)
  | JGot (j : nat)   (* received j, about to print "started" *)
  | JBusy (j : nat)  (* slept, about to print "finished" *)
  | JExit.           (* range over, deferred wg.Done() run *)

Inductive pool_pc :=
  | JAdd (w : nat)   (* first loop: test, wg.Add(1) *)
  | JGo (w : nat)    (* go wg_worker_fan_out(w, jobs, &wg) *)
  | JSend (j : nat)  (* second loop: test, jobs <- j *)
  | JClose           (* close(jobs) *)
  | JWait            (* wg.Wait() *)
  | JPrint           (* fmt.Println("All jobs done") *)
  | JEnd.

Record pool_state := PoolState {
  j_counter : Z;
  j_panicked : bool;
  j_main : pool_pc;
  j_workers : list (nat * fan_out_pc);   (* id and position *)
  j_jobs : list nat;                     (* the buffer of [jobs], oldest first *)
  j_closed : bool;
  j_stdout : list job_line;
}.

Inductive pool_label :=
  | JMain
  | JWorker (k : nat)
  | JHandOff (k : nat).   (* jobs <- j meets the receive of worker k *)

Definition pool_start : pool_state :=
  PoolState 0 false (JAdd 1) [] [] false [].

Definition pool_panic (s : pool_state) : pool_state :=
  PoolState (j_counter s) true (j_main s) (j_workers s) (j_jobs s)
    (j_closed s) (j_stdout s).

Section Pool.

Variable cfg : pool.

Definition pool_exec (l : pool_label) (s : pool_state) : option pool_state :=
  if j_panicked s then None
  else
    match l with
    | JMain =>
        match j_main s with
        | JAdd w =>
            if decide (w ≤ numWorkers cfg) then
              match WaitGroup.Add 1 (j_counter s) with
              | Some n =>
                  Some (PoolState n false (JGo w) (j_workers s) (j_jobs s)
                          (j_closed s) (j_stdout s))
              | None => Some (pool_panic s)
              end
            else
              Some (PoolState (j_counter s) false (JSend 1) (j_workers s)
                      (j_jobs s) (j_closed s) (j_stdout s))
        | JGo w =>
            Some (PoolState (j_counter s) false (JAdd (S w))
                    (j_workers s ++ [(w, JRecv)]) (j_jobs s) (j_closed s)
                    (j_stdout s))
        | JSend j =>
            if decide (j ≤ numJobs cfg) then
              if j_closed s then Some (pool_panic s)
              else if decide (length (j_jobs s) < capacity cfg) then
                Some (PoolState (j_counter s) false (JSend (S j))
                        (j_workers s) (j_jobs s ++ [j]) false (j_stdout s))
              else None
            else
              Some (PoolState (j_counter s) false JClose (j_workers s)
                      (j_jobs s) (j_closed s) (j_stdout s))
        | JClose =>
            if j_closed s then Some (pool_panic s)
            else
              Some (PoolState (j_counter s) false JWait (j_workers s)
                      (j_jobs s) true (j_stdout s))
        | JWait =>
            if WaitGroup.Wait (j_counter s) then
              Some (PoolState (j_counter s) false JPrint (j_workers s)
                      (j_jobs s) (j_closed s) (j_stdout s))
            else None
        | JPrint =>
            Some (PoolState (j_counter s) false JEnd (j_workers s)
                    (j_jobs s) (j_closed s) (j_stdout s ++ [AllJobsDone]))
        | JEnd => None
        end
    | JWorker k =>
        match j_workers s !! k with
        | Some (id, JRecv) =>
            match j_jobs s with
            | j :: rest =>
                Some (PoolState (j_counter s) false (j_main s)
                        (<[k := (id, JGot j)]> (j_workers s)) rest
                        (j_closed s) (j_stdout s))
            | [] =>
                if j_closed s then
                  match WaitGroup.Done (j_counter s) with
                  | Some n =>
                      Some (PoolState n false (j_main s)
                              (<[k := (id, JExit)]> (j_workers s)) []
                              true (j_stdout s))
                  | None => Some (pool_panic s)
                  end
                else None
            end
        | Some (id, JGot j) =>
            Some (PoolState (j_counter s) false (j_main s)
                    (<[k := (id, JBusy j)]> (j_workers s)) (j_jobs s)
                    (j_closed s) (j_stdout s ++ [StartedJob id j]))
        | Some (id, JBusy j) =>
            Some (PoolState (j_counter s) false (j_main s)
                    (<[k := (id, JRecv)]> (j_workers s)) (j_jobs s)
                    (j_closed s) (j_stdout s ++ [FinishedJob id j]))
        | Some (_, JExit) | None => None
        end
    | JHandOff k =>
        match j_main s, j_workers s !! k, j_jobs s with
        | JSend j, Some (id, JRecv), [] =>
            if decide (j ≤ numJobs cfg) then
              if j_closed s then None
              else
                Some (PoolState (j_counter s) false (JSend (S j))
                        (<[k := (id, JGot j)]> (j_workers s)) []
                        false (j_stdout s))
            else None
        | _, _, _ => None
        end
    end.

End Pool.

(** Bookkeeping on the jobs. *)

(** The job a worker holds. *)
Definition held (w : nat * fan_out_pc) : list nat :=
  match w.2 with
  | JGot j | JBusy j => [j]
  | JRecv | JExit => []
  end.

(** The worker and job of a started job not yet finished. *)
Definition busy (w : nat * fan_out_pc) : list (nat * nat) :=
  match w.2 with
  | JBusy j => [(w.1, j)]
  | _ => []
  end.

Definition started (line : job_line) : list (nat * nat) :=
  match line with
  | StartedJob id j => [(id, j)]
  | _ => []
  end.

Definition finished (line : job_line) : list (nat * nat) :=
  match line with
  | FinishedJob id j => [(id, j)]
  | _ => []
  end.

(** How many jobs have been sent. *)
Definition sent_jobs (cfg : pool) (m : pool_pc) : nat :=
  match m with
  | JAdd _ | JGo _ => 0
  | JSend j => j - 1
  | JClose | JWait | JPrint | JEnd => numJobs cfg
  end.

Definition running (w : nat * fan_out_pc) : nat :=
  match w.2 with
  | JExit => 0
  | _ => 1
  end.

Definition pool_pending (m : pool_pc) : nat :=
  match m with
  | JGo _ => 1
  | _ => 0
  end.

Definition pool_last_line (m : pool_pc) : list job_line :=
  match m with
  | JEnd => [AllJobsDone]
  | _ => []
  end.

Definition fan_out_todo (w : nat * fan_out_pc) : nat :=
  match w.2 with
  | JGot _ => 3
  | JBusy _ => 2
  | JRecv => 1
  | JExit => 0
  end.

Definition pool_main_todo (cfg : pool) (m : pool_pc) : nat :=
  match m with
  | JAdd w => 3 * (S (numWorkers cfg) - w) + 1 + (4 * numJobs cfg + 4)
  | JGo w => 3 * (S (numWorkers cfg) - w) + (4 * numJobs cfg + 4)
  | JSend j => 4 * (S (numJobs cfg) - j) + 4
  | JClose => 3
  | JWait => 2
  | JPrint => 1
  | JEnd => 0
  end.

Definition pool_todo (cfg : pool) (s : pool_state) : nat :=
  pool_main_todo cfg (j_main s)
  + sum_list (fan_out_todo <$> j_workers s)
  + 3 * length (j_jobs s).

(** Where the function stands, against the workers and the channel. *)
Definition pool_main_ok (cfg : pool) (s : pool_state) : Prop :=
  match j_main s with
  | JAdd w =>
      1 ≤ w ≤ S (numWorkers cfg) ∧ length (j_workers s) = w - 1
      ∧ j_closed s = false
  | JGo w =>
      1 ≤ w ≤ numWorkers cfg ∧ length (j_workers s) = w - 1
      ∧ j_closed s = false
  | JSend j =>
      1 ≤ j ≤ S (numJobs cfg) ∧ length (j_workers s) = numWorkers cfg
      ∧ j_closed s = false
  | JClose =>
      length (j_workers s) = numWorkers cfg ∧ j_closed s = false
  | JWait =>
      length (j_workers s) = numWorkers cfg ∧ j_closed s = true
  | JPrint | JEnd =>
      length (j_workers s) = numWorkers cfg ∧ j_closed s = true
      ∧ Forall (λ w, w.2 = JExit) (j_workers s)
  end.

Record pool_inv (cfg : pool) (s : pool_state) : Prop := PoolInv {
  pi_main : pool_main_ok cfg s;
  pi_panicked : j_panicked s = false;
  pi_counter :
    j_counter s
    = Z.of_nat (sum_list (running <$> j_workers s)
                + pool_pending (j_main s));
  pi_ids : (j_workers s).*1 = seq 1 (length (j_workers s));
  pi_jobs :
    seq 1 (sent_jobs cfg (j_main s))
    ≡ₚ (j_stdout s ≫= finished).*2 ++ (j_workers s ≫= held) ++ j_jobs s;
  pi_started :
    j_stdout s ≫= started ≡ₚ (j_stdout s ≫= finished) ++ (j_workers s ≫= busy);
  pi_buffer : length (j_jobs s) ≤ capacity cfg;
  pi_exited :
    sum_list (running <$> j_workers s) < length (j_workers s) →
    j_closed s = true ∧ j_jobs s = [];
  pi_stdout :
    ∃ lines,
      j_stdout s = lines ++ pool_last_line (j_main s)
      ∧ AllJobsDone ∉ lines;
}.

(** A schedule of [GoroutineswithChannelsAndWaitGroup] and the state it
    ends in. *)
Definition sched_pool : list pool_label :=
  [JMain; JMain; JMain; JMain; JMain; JMain; JMain;
   JHandOff 0; JMain; JMain;
   JWorker 1; JWorker 0; JWorker 1; JWorker 2;
   JMain; JMain; JMain;
   JWorker 0; JWorker 0; JWorker 2; JWorker 1; JMain; JWorker 1; JWorker 0;
   JWorker 2; JWorker 2; JWorker 1; JWorker 0; JWorker 1; JWorker 0;
   JWorker 1; JMain; JMain].

Definition state_pool : pool_state :=
  PoolState 0 false JEnd [(1, JExit); (2, JExit); (3, JExit)] [] true
    [StartedJob 1 1; StartedJob 2 2; FinishedJob 1 1; StartedJob 3 3;
     FinishedJob 2 2; StartedJob 1 4; FinishedJob 3 3; StartedJob 2 5;
     FinishedJob 1 4; FinishedJob 2 5; AllJobsDone].

(** * Proofs *)

(** ** Runs of [FanOutFanInWithContext] *)

Example FanOutFanInWithContext_all :
  run FanOutFanInWithContext_urls sched_all FanOutFanInWithContext
  = Some state_all.
Proof. reflexivity. Qed.

Example FanOutFanInWithContext_timeout :
  run FanOutFanInWithContext_urls sched_timeout FanOutFanInWithContext
  = Some state_timeout.
Proof. reflexivity. Qed.

(** The deferred [cancel()] of [FanOutFanInWithContext], run after the
    deadline has fired, changes nothing. *)
Example FanOutFanInWithContext_deferred_cancel :
  run FanOutFanInWithContext_urls [CtxCancel GoContext.Canceled]
    state_timeout
  = Some state_timeout.
Proof. reflexivity. Qed.


(** ** Lists of workers *)

Lemma workers_update (ws : list (string * worker_pc)) k w w' :
  ws !! k = Some w →
  ∃ l1 l2, ws = l1 ++ w :: l2 ∧ <[k:=w']> ws = l1 ++ w' :: l2.
Proof.
  intros Hk. exists (take k ws), (drop (S k) ws). split.
  - symmetry. by apply take_drop_middle.
  - apply insert_take_drop. by eapply lookup_lt_Some.
Qed.

Lemma sent_by_length (ws : list (string * worker_pc)) :
  length (ws ≫= sent_by) ≤ length ws.
Proof.
  induction ws as [|[u pc] ws IH]; [done|].
  rewrite bind_cons, length_app. destruct pc; simpl in *; lia.
Qed.

Lemma sent_by_submseteq (ws : list (string * worker_pc)) :
  ws ≫= sent_by ⊆+ data_from <$> ws.*1.
Proof.
  induction ws as [|[u pc] ws IH]; [done|].
  rewrite bind_cons. destruct pc; simpl; by constructor.
Qed.

(** If fewer results were handed over than there are workers, some worker
    has not handed over its result. *)
Lemma sent_by_pending (ws : list (string * worker_pc)) :
  length (ws ≫= sent_by) < length ws →
  ∃ k u pc, ws !! k = Some (u, pc) ∧ pc ≠ WSent.
Proof.
  induction ws as [|[u pc] ws IH]; [simpl; lia|].
  rewrite bind_cons, length_app. simpl. intros Hlt.
  destruct (decide (pc = WSent)) as [->|Hpc].
  - destruct IH as (k & u' & pc' & Hk & Hne); [simpl in Hlt; lia|].
    by exists (S k), u', pc'.
  - by exists 0, u, pc.
Qed.


Lemma sent_by_lt (ws : list (string * worker_pc)) k u pc :
  ws !! k = Some (u, pc) → pc ≠ WSent →
  length (ws ≫= sent_by) < length ws.
Proof.
  intros Hk Hpc.
  destruct (workers_update ws k _ (u, pc) Hk) as (l1 & l2 & -> & _).
  rewrite bind_app, bind_cons, !length_app.
  pose proof (sent_by_length l1). pose proof (sent_by_length l2).
  destruct pc; simpl; try lia. done.
Qed.


(** ** The invariant holds *)

Section Invariant.

Variable urls : list string.

Lemma worker_ok_mono c c' lines lines' w :
  (∀ err, c = Some err → c' = Some err) → lines ⊆ lines' →
  worker_ok c lines w → worker_ok c' lines' w.
Proof.
  intros Hc Hl. unfold worker_ok. destruct (w.2); try done.
  intros (err & ? & ?). exists err. split; [by apply Hc | by apply Hl].
Qed.

Lemma inv_init c : inv urls (fanout_fetch c urls).
Proof. split; [done | done | constructor | done]. Qed.

Lemma inv_out_length s : inv urls s → length (out s) ≤ length urls.
Proof.
  intros [Hagg Hres Hws Hcons]. apply Permutation_length in Hres.
  rewrite length_app in Hres. pose proof (sent_by_length (workers s)) as Hle.
  assert (length (workers s) ≤ length urls) as Hw.
  { unfold agg_ok in Hagg. destruct (agg s); destruct_and!;
      subst urls; rewrite ?length_app, !length_fmap; lia. }
  lia.
Qed.

Lemma agg_ok_ext s s' :
  (workers s').*1 = (workers s).*1 → agg s' = agg s → out s' = out s →
  closes s' = closes s → (is_Some (ctx s) → is_Some (ctx s')) →
  agg_ok urls s → agg_ok urls s'.
Proof.
  unfold agg_ok. intros Hw Ha Ho Hcl Hc. rewrite Hw, Ha, Ho, Hcl.
  destruct (agg s); intuition.
Qed.

Lemma fst_update (ws : list (string * worker_pc)) k u pc pc' :
  ws !! k = Some (u, pc) → (<[k:=(u, pc')]> ws).*1 = ws.*1.
Proof.
  intros Hk. rewrite list_fmap_insert. apply list_insert_id.
  by rewrite list_lookup_fmap, Hk.
Qed.

Lemma sent_by_update (ws : list (string * worker_pc)) k u pc pc' :
  ws !! k = Some (u, pc) → pc ≠ WSent →
  <[k:=(u, pc')]> ws ≫= sent_by ≡ₚ sent_by (u, pc') ++ ws ≫= sent_by.
Proof.
  intros Hk Hpc.
  destruct (workers_update ws k (u, pc) (u, pc') Hk) as (l1 & l2 & -> & ->).
  rewrite !bind_app, !bind_cons.
  replace (sent_by (u, pc)) with (@nil string) by by destruct pc.
  simpl. apply Permutation_app_swap_app.
Qed.

Lemma inv_exec l s s' : inv urls s → exec urls l s = Some s' → inv urls s'.
Proof.
  intros Hinv Hexec. pose proof (inv_out_length s Hinv) as Hlen.
  destruct Hinv as [Hagg Hres Hws Hcons].
  destruct l; simpl in Hexec.
  - (* CtxCancel *)
    simplify_eq. split; simpl; [|done| |exact Hcons].
    + eapply agg_ok_ext; [..|exact Hagg]; try done.
      simpl. by intros [err ->].
    + eapply Forall_impl; [exact Hws|]. intros w. apply worker_ok_mono; [|done].
      by intros err ->.
  - (* GoWorker *)
    unfold agg_ok in Hagg.
    destruct (agg s) as [[|u rest]| | |] eqn:Ha; simplify_eq.
    destruct Hagg as (Hurls & Hout & Hcl).
    split; unfold agg_ok; simpl.
    + by rewrite fmap_app, <-(assoc_L (++)).
    + rewrite bind_app. simpl. by rewrite !app_nil_r in *.
    + apply Forall_app. split; [done|]. by repeat constructor.
    + exact Hcons.
  - (* FanInStart *)
    unfold agg_ok in Hagg.
    destruct (agg s) as [[|u rest]| | |] eqn:Ha; simplify_eq.
    destruct Hagg as (Hurls & Hout & Hcl).
    split; unfold agg_ok; simpl; [|done|done|exact Hcons].
    rewrite app_nil_r in Hurls. by rewrite Hout.
  - (* Fetch *)
    destruct (workers s !! k) as [[u pc]|] eqn:Hk; [|done].
    destruct pc; try done.
    destruct (fan_in_out_fetch (ctx s) b u) as [[data [err|]]|] eqn:Hf;
      simplify_eq.
    + assert (ctx s = Some err) as Hc.
      { destruct b; simpl in Hf; [done|]. by destruct (ctx s); simplify_eq. }
      split; simpl.
      * eapply agg_ok_ext; [..|exact Hagg]; try done.
        simpl. by eapply fst_update.
      * rewrite sent_by_update by done. by rewrite Hres.
      * apply Forall_insert.
        -- eapply Forall_impl; [exact Hws|]. intros w.
           apply worker_ok_mono; [done|]. by apply list_subseteq_app_l.
        -- exists err. split; [done|]. apply elem_of_app. right.
           by apply list_elem_of_singleton.
      * exact Hcons.
    + assert (data = data_from u) as ->.
      { destruct b; simpl in Hf; [by simplify_eq|].
        by destruct (ctx s); simplify_eq. }
      split; simpl.
      * eapply agg_ok_ext; [..|exact Hagg]; try done.
        simpl. by eapply fst_update.
      * rewrite sent_by_update by done. by rewrite Hres.
      * by apply Forall_insert.
      * exact Hcons.
  - (* ResultCh *)
    destruct (workers s !! k) as [[u pc]|] eqn:Hk; [|done].
    destruct pc as [|data| |]; try done.
    unfold agg_ok in Hagg. destruct (agg s) as [| i | |] eqn:Ha; try done.
    case_decide; simplify_eq. destruct Hagg as (Hurls & Hout & Hcl).
    assert (data = data_from u) as ->.
    { eapply Forall_lookup_1 in Hws; [|exact Hk]. exact Hws. }
    split; unfold agg_ok; simpl.
    + split_and!; try done. by erewrite fst_update.
    + rewrite sent_by_update by done. simpl in *.
      rewrite app_nil_r in Hres. rewrite <-Hres.
      by rewrite <-Permutation_cons_append.
    + by apply Forall_insert.
    + exact Hcons.
  - (* AggDone *)
    unfold agg_ok in Hagg. destruct (agg s) as [| i | |] eqn:Ha; try done.
    destruct (ctx s) as [err|] eqn:Hc; [|done].
    case_decide; simplify_eq. destruct Hagg as (Hurls & Hout & Hcl).
    split; unfold agg_ok; simpl.
    + split_and!; [done|lia|]. right. split; [by eexists|lia].
    + done.
    + eapply Forall_impl; [exact Hws|]. intros w.
      apply worker_ok_mono; [done|]. by apply list_subseteq_app_l.
    + intros _. simpl. lia.
  - (* Out *)
    unfold agg_ok in Hagg. destruct (agg s) as [| | i result |] eqn:Ha;
      try done.
    destruct (consumer s) eqn:Hp; simplify_eq.
    destruct Hagg as (Hurls & Hout & Hi & Hcl).
    split; unfold agg_ok; simpl.
    + split_and!; [done| |done]. rewrite length_app. simpl. lia.
    + by rewrite app_nil_r.
    + done.
    + done.
  - (* LoopEnd *)
    unfold agg_ok in Hagg. destruct (agg s) as [| i | |] eqn:Ha; try done.
    case_decide; simplify_eq. destruct Hagg as (Hurls & Hout & Hcl).
    split; unfold agg_ok; simpl; [|done|done|].
    + split_and!; [done|lia|]. left. lia.
    + intros _. simpl. lia.
  - (* Println *)
    destruct (consumer s) eqn:Hp; simplify_eq.
    split; simpl; [|done| |done].
    + eapply agg_ok_ext; [..|exact Hagg]; done.
    + eapply Forall_impl; [exact Hws|]. intros w.
      apply worker_ok_mono; [done|]. by apply list_subseteq_app_l.
  - (* RangeEnd *)
    destruct (consumer s) eqn:Hp; try done.
    destruct (closes s) as [|n] eqn:Hcl; simplify_eq.
    split; simpl; [|done|done|].
    + eapply agg_ok_ext; [..|exact Hagg]; done.
    + intros _. simpl.
      assert (closes s ≤ 1); [|lia].
      unfold agg_ok in Hagg. destruct (agg s); destruct_and!; lia.
Qed.

Lemma inv_run sched s s' :
  inv urls s → run urls sched s = Some s' → inv urls s'.
Proof.
  revert s. induction sched as [|l sched IH]; intros s Hinv Hrun; simpl in *.
  - by simplify_eq.
  - destruct (exec urls l s) as [s1|] eqn:Hexec; [|done].
    eauto using inv_exec.
Qed.

(** Every state a dispatch can be in satisfies the invariant. *)
Lemma inv_reachable c sched s :
  run urls sched (fanout_fetch c urls) = Some s → inv urls s.
Proof. apply inv_run, inv_init. Qed.

End Invariant.


(** ** Progress and termination *)

Section Liveness.

Variable urls : list string.

Lemma worker_todo_update (ws : list (string * worker_pc)) k w w' :
  ws !! k = Some w →
  sum_list (worker_todo <$> <[k:=w']> ws) + worker_todo w
  = sum_list (worker_todo <$> ws) + worker_todo w'.
Proof.
  intros Hk. destruct (workers_update ws k w w' Hk) as (l1 & l2 & -> & ->).
  rewrite !fmap_app, !fmap_cons, !sum_list_with_app. simpl. lia.
Qed.

(** Every action other than a repeated cancellation lowers [todo]; a
    repeated cancellation leaves the state as it is. *)
Lemma todo_exec l s s' :
  exec urls l s = Some s' →
  (∃ e, l = CtxCancel e ∧ is_Some (ctx s) ∧ s' = s)
  ∨ todo urls s' < todo urls s.
Proof.
  intros Hexec. destruct l; simpl in Hexec.
  - destruct s as [c ws a p o n lines]. simpl in *. simplify_eq.
    destruct c as [err|]; simpl.
    + left. by exists e.
    + right. unfold todo. simpl. lia.
  - right. destruct s as [c ws a p o n lines]. simpl in *.
    destruct a as [[|u rest]| | |]; simplify_eq. unfold todo. simpl.
    rewrite fmap_app, sum_list_with_app. simpl. lia.
  - right. destruct s as [c ws a p o n lines]. simpl in *.
    destruct a as [[|u rest]| | |]; simplify_eq. unfold todo. simpl. lia.
  - right. destruct s as [c ws a p o n lines]. simpl in *.
    destruct (ws !! k) as [[u pc]|] eqn:Hk; [|done]. destruct pc; try done.
    destruct (fan_in_out_fetch c b u) as [[data [err|]]|]; simplify_eq;
      unfold todo; simpl;
      match goal with
      | |- context [<[k:=?w']> ws] =>
          pose proof (worker_todo_update ws k _ w' Hk) as Hsum
      end; cbv [worker_todo snd] in Hsum |- *; lia.
  - right. destruct s as [c ws a p o n lines]. simpl in *.
    destruct (ws !! k) as [[u pc]|] eqn:Hk; [|done].
    destruct pc as [|data| |]; try done. destruct a as [| i | |]; try done.
    case_decide; simplify_eq. unfold todo. simpl.
    pose proof (worker_todo_update ws k _ (u, WSent) Hk) as Hsum.
    cbv [worker_todo snd] in Hsum |- *. lia.
  - right. destruct s as [c ws a p o n lines]. simpl in *.
    destruct a as [| i | |]; try done. destruct c as [err|]; [|done].
    case_decide; simplify_eq. unfold todo. simpl. lia.
  - right. destruct s as [c ws a p o n lines]. simpl in *.
    destruct a as [| | i result |]; try done. destruct p; simplify_eq.
    unfold todo. simpl. lia.
  - right. destruct s as [c ws a p o n lines]. simpl in *.
    destruct a as [| i | |]; try done.
    case_decide; simplify_eq. unfold todo. simpl. lia.
  - right. destruct s as [c ws a p o n lines]. simpl in *.
    destruct p; simplify_eq. unfold todo. simpl. lia.
  - right. destruct s as [c ws a p o n lines]. simpl in *.
    destruct p; try done. destruct n; simplify_eq. unfold todo. simpl. lia.
Qed.

Lemma own_actions_cons l sched :
  own_actions (l :: sched) = own_action l + own_actions sched.
Proof. reflexivity. Qed.

(** A run has no more steps of goroutines than [todo] allows, however many
    cancellations are interleaved. *)
Lemma todo_run sched s s' :
  run urls sched s = Some s' →
  own_actions sched + todo urls s' ≤ todo urls s.
Proof.
  revert s. induction sched as [|l sched IH]; intros s Hrun.
  - simpl in Hrun. simplify_eq. unfold own_actions. simpl. lia.
  - rewrite own_actions_cons. simpl in Hrun.
    destruct (exec urls l s) as [s1|] eqn:Hexec; [|done].
    specialize (IH s1 Hrun).
    destruct (todo_exec l s s1 Hexec) as [(e & -> & _ & ->)|Hlt].
    + simpl. lia.
    + destruct l; simpl; lia.
Qed.

(** No deadlock before the close: while [out] is open, some goroutine can
    act without any help from a cancellation. *)
Lemma inv_progress s :
  inv urls s →
  closes s = 1
  ∨ ∃ l s', (∀ e, l ≠ CtxCancel e) ∧ exec urls l s = Some s'.
Proof.
  intros Hinv. pose proof (inv_out_length urls s Hinv) as Hlen.
  destruct Hinv as [Hagg Hres Hws Hcons]. unfold agg_ok in Hagg.
  destruct (agg s) as [[|u rest]| i | i result |] eqn:Ha.
  - right. exists FanInStart. simpl. rewrite Ha. eauto.
  - right. exists GoWorker. simpl. rewrite Ha. eauto.
  - right. destruct Hagg as (Hurls & Hout & Hcl).
    destruct (decide (i < length urls)) as [Hi|Hi].
    + destruct (sent_by_pending (workers s)) as (k & u & pc & Hk & Hpc).
      { apply Permutation_length in Hres. rewrite <-Hres, length_app. simpl.
        rewrite <-Hurls, length_fmap in Hi. lia. }
      destruct pc as [|data| |]; [| | |done].
      * exists (Fetch k AfterDelay). simpl. rewrite Hk. eauto.
      * exists (ResultCh k). simpl. rewrite Hk, Ha.
        rewrite decide_True by done. eauto.
      * eapply Forall_lookup_1 in Hws; [|exact Hk].
        destruct Hws as (err & Hc & _).
        exists AggDone. simpl. rewrite Ha, Hc.
        rewrite decide_True by done. eauto.
    + exists LoopEnd. simpl. rewrite Ha. rewrite decide_False by done. eauto.
  - right. destruct Hagg as (_ & _ & _ & Hcl).
    destruct (consumer s) as [|data|] eqn:Hp.
    + exists Out. simpl. rewrite Ha, Hp. eauto.
    + exists Println. simpl. rewrite Hp. eauto.
    + specialize (Hcons Hp). lia.
  - left. by destruct Hagg as (_ & ? & _).
Qed.

(** From every state of a dispatch the close of [out] can be reached, and
    without the context being cancelled on the way. *)
Lemma inv_can_close s :
  inv urls s →
  ∃ sched s',
    Forall (λ l, ∀ e, l ≠ CtxCancel e) sched
    ∧ run urls sched s = Some s' ∧ closes s' = 1.
Proof.
  remember (todo urls s) as n eqn:Hn. revert s Hn.
  induction (lt_wf n) as [n _ IH]. intros s -> Hinv.
  destruct (inv_progress s Hinv) as [Hcl|(l & s1 & Hl & Hexec)].
  - exists [], s. by repeat split.
  - destruct (todo_exec l s s1 Hexec) as [(e & -> & _)|Hlt].
    { by destruct (Hl e). }
    destruct (IH _ Hlt s1 eq_refl) as (sched & s' & Hsched & Hrun & Hcl).
    { by eapply inv_exec. }
    exists (l :: sched), s'. split_and!; [by constructor| |done].
    simpl. by rewrite Hexec.
Qed.

End Liveness.


(** ** What single actions leave alone *)

Section Frames.

Variable urls : list string.

(** Case analysis on an enabled action: one goal per way [exec] answers. *)
Ltac exec_inv H :=
  match type of H with
  | exec _ ?l ?s = Some _ =>
      destruct l; simpl in H;
      repeat match type of H with
        | context [match ?x with _ => _ end] => destruct x eqn:?
        end;
      simplify_eq; simpl
  end.

Lemma run_app sched1 sched2 s :
  run urls (sched1 ++ sched2) s = run urls sched1 s ≫= run urls sched2.
Proof.
  revert s. induction sched1 as [|l sched1 IH]; intros s; simpl; [done|].
  by destruct (exec urls l s).
Qed.

Lemma run_cons l sched s :
  run urls (l :: sched) s = exec urls l s ≫= run urls sched.
Proof. simpl. by destruct (exec urls l s). Qed.

(** Once the context has an error it keeps that error. *)
Lemma exec_ctx_stable l s s' err :
  exec urls l s = Some s' → ctx s = Some err → ctx s' = Some err.
Proof. intros Hexec Hc. exec_inv Hexec; try done. by rewrite Hc. Qed.

Lemma run_ctx_stable sched s s' err :
  run urls sched s = Some s' → ctx s = Some err → ctx s' = Some err.
Proof.
  revert s. induction sched as [|l sched IH]; intros s Hrun Hc; simpl in *.
  - by simplify_eq.
  - destruct (exec urls l s) as [s1|] eqn:Hexec; [|done].
    eauto using exec_ctx_stable.
Qed.

(** Only a cancellation touches the context. *)
Lemma exec_ctx_same l s s' :
  (∀ e, l ≠ CtxCancel e) → exec urls l s = Some s' → ctx s' = ctx s.
Proof. intros Hl Hexec. exec_inv Hexec; try done. by destruct (Hl e). Qed.

Lemma run_ctx_same sched s s' :
  Forall (λ l, ∀ e, l ≠ CtxCancel e) sched →
  run urls sched s = Some s' → ctx s' = ctx s.
Proof.
  intros Hsched. revert s.
  induction Hsched as [|l sched Hl _ IH]; intros s Hrun; simpl in *.
  - by simplify_eq.
  - destruct (exec urls l s) as [s1|] eqn:Hexec; [|done].
    rewrite (IH _ Hrun). by eapply exec_ctx_same.
Qed.

(** A cancellation of a context that is already done changes nothing. *)
Lemma exec_cancel_again e s :
  is_Some (ctx s) → exec urls (CtxCancel e) s = Some s.
Proof. destruct s as [c ws a p o n lines]. simpl. by intros [err ->]. Qed.

(** [out] only ever grows, and [close(out)] is never undone. *)
Lemma exec_out_grows l s s' :
  exec urls l s = Some s' → out s `prefix_of` out s' ∧ closes s ≤ closes s'.
Proof.
  intros Hexec. exec_inv Hexec; split; try done; try lia.
  by apply prefix_app_r.
Qed.

(** After the aggregator has returned nothing is sent on [out], nothing is
    received from [resultCh], and [out] is not closed again. *)
Lemma exec_returned l s s' :
  agg s = AReturned → exec urls l s = Some s' →
  agg s' = AReturned ∧ out s' = out s ∧ closes s' = closes s
  ∧ ∀ k u data, workers s !! k = Some (u, WSend data) →
                workers s' !! k = Some (u, WSend data).
Proof.
  intros Ha Hexec. exec_inv Hexec; try congruence.
  all: split_and!; try done.
  all: intros k' u' data' Hk'; destruct (decide (k = k')) as [->|Hne];
    [congruence | by rewrite list_lookup_insert_ne].
Qed.

Lemma run_returned sched s s' :
  agg s = AReturned → run urls sched s = Some s' →
  agg s' = AReturned ∧ out s' = out s ∧ closes s' = closes s
  ∧ ∀ k u data, workers s !! k = Some (u, WSend data) →
                workers s' !! k = Some (u, WSend data).
Proof.
  revert s. induction sched as [|l sched IH]; intros s Ha Hrun; simpl in *.
  - by simplify_eq.
  - destruct (exec urls l s) as [s1|] eqn:Hexec; [|done].
    destruct (exec_returned l s s1 Ha Hexec) as (Ha1 & Ho1 & Hc1 & Hw1).
    destruct (IH s1 Ha1 Hrun) as (Ha' & Ho' & Hc' & Hw').
    split_and!; [done|congruence|congruence|eauto].
Qed.



(** A result the aggregator has received is on its way to the consumer:
    either it is still in the aggregator's hand, or it is in [out]. *)
Lemma exec_in_hand l s s' i result :
  (agg s = AOut i result ∧ closes s = 0) ∨ result ∈ out s →
  exec urls l s = Some s' →
  (agg s' = AOut i result ∧ closes s' = 0) ∨ result ∈ out s'.
Proof.
  intros [[Ha Hcl]|Hin] Hexec.
  - exec_inv Hexec; try congruence; try by left.
    right. simplify_eq. apply elem_of_app. right.
    by apply list_elem_of_singleton.
  - right. destruct (exec_out_grows l s s' Hexec) as [[suffix ->] _].
    apply elem_of_app. by left.
Qed.

Lemma run_in_hand sched s s' i result :
  (agg s = AOut i result ∧ closes s = 0) ∨ result ∈ out s →
  run urls sched s = Some s' →
  (agg s' = AOut i result ∧ closes s' = 0) ∨ result ∈ out s'.
Proof.
  revert s. induction sched as [|l sched IH]; intros s Hs Hrun; simpl in *.
  - by simplify_eq.
  - destruct (exec urls l s) as [s1|] eqn:Hexec; [|done].
    eauto using exec_in_hand.
Qed.

End Frames.


(** ** Consequences of the invariant *)

#[global] Instance data_from_inj : Inj (=) (=) data_from.
Proof. intros u v Huv. unfold data_from in Huv. by simplify_eq/=. Qed.

Lemma submseteq_NoDup {A} (l k : list A) : l ⊆+ k → NoDup k → NoDup l.
Proof.
  intros [k' Hk]%submseteq_Permutation Hnd. rewrite Hk in Hnd.
  by apply NoDup_app in Hnd as (? & _ & _).
Qed.

(** Whatever left the workers on [resultCh] is the payload of some of the
    urls, each url used at most once. *)
Lemma inv_out_submseteq urls s :
  inv urls s → out s ++ in_hand (agg s) ⊆+ data_from <$> urls.
Proof.
  intros [Hagg Hres Hws Hcons]. rewrite Hres.
  etrans; [apply sent_by_submseteq|].
  unfold agg_ok in Hagg. destruct (agg s); destruct_and!; subst urls;
    rewrite ?fmap_app; try done.
  by apply submseteq_inserts_r.
Qed.

(** At the close, the aggregator has returned, by the end of its loop with a
    result for every url, or by its [<-ctx.Done()] case with fewer. *)
Lemma inv_closed urls s :
  inv urls s → closes s = 1 →
  agg s = AReturned
  ∧ (length (out s) = length urls
     ∨ (is_Some (ctx s) ∧ length (out s) < length urls)).
Proof.
  intros [Hagg _ _ _] Hcl. unfold agg_ok in Hagg.
  destruct (agg s); destruct_and!; try congruence. done.
Qed.

Lemma inv_closes_le urls s : inv urls s → closes s ≤ 1.
Proof.
  intros [Hagg _ _ _]. unfold agg_ok in Hagg.
  destruct (agg s); destruct_and!; lia.
Qed.

Lemma inv_returned urls s : inv urls s → agg s = AReturned → closes s = 1.
Proof.
  intros [Hagg _ _ _] Ha. unfold agg_ok in Hagg. rewrite Ha in Hagg.
  by destruct_and!.
Qed.

(** A stream closed after a result for every url holds exactly the payloads
    of the urls. *)
Lemma inv_complete urls s :
  inv urls s → agg s = AReturned → length (out s) = length urls →
  out s ≡ₚ data_from <$> urls.
Proof.
  intros Hinv Ha Hlen. pose proof (inv_out_submseteq urls s Hinv) as Hsub.
  rewrite Ha in Hsub. simpl in Hsub. rewrite app_nil_r in Hsub.
  apply submseteq_length_Permutation; [done|]. rewrite length_fmap. lia.
Qed.


(** * The dispatch and its stream *)

(** ** Exactly one result per item *)

(** C1, counterexample.  One url, a context that is not yet done.  The worker
    is started and the fan-in loop entered; the deadline fires; the
    aggregator's select takes [<-ctx.Done()], prints and returns, and the
    deferred [close(out)] runs: the stream closes having emitted nothing for
    the one item. *)
Lemma emits_one_result_per_item_refuted :
  ¬ emits_one_result_per_item ["a.com"%string] GoContext.WithTimeout.
Proof.
  intros Hclaim.
  specialize (Hclaim
    [GoWorker; FanInStart; CtxCancel GoContext.DeadlineExceeded; AggDone]
    _ eq_refl eq_refl).
  discriminate Hclaim.
Qed.

(** C1, as the code has it.  A dispatch never emits more results than it has
    urls.  If the context is not done when the stream closes, the stream
    holds exactly one result per url, the payloads of the urls in some order;
    and as long as the context is not done the dispatch can run on to such a
    close.  (There is no concurrency setting: one worker per url.) *)
Theorem one_result_per_item_unless_cancelled urls c sched s :
  run urls sched (fanout_fetch c urls) = Some s →
  length (out s) ≤ length urls
  ∧ (closes s = 1 → ctx s = None → out s ≡ₚ data_from <$> urls)
  ∧ (ctx s = None →
     ∃ sched' s',
       run urls sched' s = Some s' ∧ ctx s' = None ∧ closes s' = 1
       ∧ out s' ≡ₚ data_from <$> urls).
Proof.
  intros Hrun. pose proof (inv_reachable urls c sched s Hrun) as Hinv.
  assert (∀ s1, inv urls s1 → closes s1 = 1 → ctx s1 = None →
                out s1 ≡ₚ data_from <$> urls) as Hclosed.
  { intros s1 Hinv1 Hcl Hc.
    destruct (inv_closed urls s1 Hinv1 Hcl) as [Ha [Hlen|[[err Herr] _]]];
      [|congruence].
    by apply inv_complete. }
  split_and!.
  - by apply inv_out_length.
  - by apply Hclosed.
  - intros Hc.
    destruct (inv_can_close urls s Hinv) as (sched' & s' & Hns & Hrun' & Hcl).
    pose proof (run_ctx_same urls sched' s s' Hns Hrun') as Hc'.
    rewrite Hc in Hc'. exists sched', s'. split_and!; try done.
    apply Hclosed; eauto using inv_run.
Qed.

Lemma one_result_per_item_unless_cancelled_witness :
  run FanOutFanInWithContext_urls sched_all
    (fanout_fetch GoContext.WithTimeout FanOutFanInWithContext_urls)
  = Some state_all
  ∧ (length (out state_all) ≤ length FanOutFanInWithContext_urls
     ∧ (closes state_all = 1 → ctx state_all = None →
        out state_all ≡ₚ data_from <$> FanOutFanInWithContext_urls)
     ∧ (ctx state_all = None →
        ∃ sched' s',
          run FanOutFanInWithContext_urls sched' state_all = Some s'
          ∧ ctx s' = None ∧ closes s' = 1
          ∧ out s' ≡ₚ data_from <$> FanOutFanInWithContext_urls)).
Proof.
  split; [reflexivity|].
  apply (one_result_per_item_unless_cancelled FanOutFanInWithContext_urls
           GoContext.WithTimeout sched_all state_all).
  reflexivity.
Defined.

(** ** A stream that always ends *)

(** C2, counterexample.  The four urls of [FanOutFanInWithContext]; b.com is
    fetched and delivered, a.com is fetched and its worker waits to send;
    then the deadline fires, the worker of c.com takes [<-ctx.Done()], the
    aggregator takes [<-ctx.Done()] and returns, closing [out], and the
    worker of d.com takes [<-ctx.Done()].  Three items have not completed
    and the closed stream holds the one result of b.com: nothing was flushed
    for them. *)
Lemma remaining_flushed_refuted :
  ∃ s,
    run FanOutFanInWithContext_urls sched_timeout FanOutFanInWithContext
    = Some s
    ∧ closes s = 1 ∧ out s = ["Data from b.com"%string]
    ∧ ¬ remaining_flushed s.
Proof.
  exists state_timeout. split_and!; [reflexivity..|].
  unfold remaining_flushed. vm_compute. discriminate.
Qed.

(** C2, as the code has it.  With the consumer of [FanOutFanInWithContext],
    which keeps receiving, the stream always ends.  Before the close some
    goroutine can always act without waiting for a cancellation.  Every
    action lowers [todo], except the cancellation of a context that is
    already done, which changes nothing; so a run from a state [s] has at
    most [todo s] steps of goroutines, however many cancellations are
    interleaved, and [todo] is at most [6 * len(urls) + 4] at the start.  At
    the close either every url has its result in the stream, or the context
    was done and the stream holds fewer results than urls: the results of
    the remaining items are dropped, not replaced. *)
Theorem stream_always_ends urls c sched s :
  run urls sched (fanout_fetch c urls) = Some s →
  (closes s = 1
   ∨ ∃ l s', (∀ e, l ≠ CtxCancel e) ∧ exec urls l s = Some s')
  ∧ (∀ l s', exec urls l s = Some s' →
       (∃ e, l = CtxCancel e ∧ is_Some (ctx s) ∧ s' = s)
       ∨ todo urls s' < todo urls s)
  ∧ (∀ sched' s',
       run urls sched' s = Some s' →
       own_actions sched' + todo urls s' ≤ todo urls s)
  ∧ todo urls s ≤ todo urls (fanout_fetch c urls)
  ∧ todo urls (fanout_fetch c urls) ≤ 6 * length urls + 4
  ∧ (closes s = 1 →
     out s ≡ₚ data_from <$> urls
     ∨ (is_Some (ctx s) ∧ length (out s) < length urls)).
Proof.
  intros Hrun. pose proof (inv_reachable urls c sched s Hrun) as Hinv.
  split_and!.
  - by apply inv_progress.
  - intros l s' Hexec. by apply todo_exec.
  - intros sched' s' Hrun'. by apply todo_run.
  - pose proof (todo_run urls sched _ s Hrun). lia.
  - unfold todo. simpl. destruct c; lia.
  - intros Hcl. destruct (inv_closed urls s Hinv Hcl) as [Ha [Hlen|Hc]].
    + left. by apply inv_complete.
    + by right.
Qed.

Lemma stream_always_ends_witness :
  let urls := FanOutFanInWithContext_urls in
  let sched :=
    [GoWorker; GoWorker; GoWorker; GoWorker; FanInStart;
     Fetch 1 AfterDelay; ResultCh 1; Out; Fetch 0 AfterDelay;
     CtxCancel GoContext.DeadlineExceeded; Fetch 2 CtxDone] in
  let s :=
    State (Some GoContext.DeadlineExceeded)
      [("a.com", WSend "Data from a.com"); ("b.com", WSent);
       ("c.com", WFailed); ("d.com", WFetch)]%string
      (ASelect 1) (CPrintln "Data from b.com") ["Data from b.com"%string] 0
      ["error: context deadline exceeded"%string] in
  run urls sched FanOutFanInWithContext = Some s
  ∧ closes s = 0
  ∧ ((closes s = 1
      ∨ ∃ l s', (∀ e, l ≠ CtxCancel e) ∧ exec urls l s = Some s')
     ∧ (∀ l s', exec urls l s = Some s' →
          (∃ e, l = CtxCancel e ∧ is_Some (ctx s) ∧ s' = s)
          ∨ todo urls s' < todo urls s)
     ∧ (∀ sched' s',
          run urls sched' s = Some s' →
          own_actions sched' + todo urls s' ≤ todo urls s)
     ∧ todo urls s ≤ todo urls (fanout_fetch GoContext.WithTimeout urls)
     ∧ todo urls (fanout_fetch GoContext.WithTimeout urls)
       ≤ 6 * length urls + 4
     ∧ (closes s = 1 →
        out s ≡ₚ data_from <$> urls
        ∨ (is_Some (ctx s) ∧ length (out s) < length urls))).
Proof.
  split; [reflexivity|]. split; [reflexivity|].
  apply (stream_always_ends FanOutFanInWithContext_urls
           GoContext.WithTimeout
           [GoWorker; GoWorker; GoWorker; GoWorker; FanInStart;
            Fetch 1 AfterDelay; ResultCh 1; Out; Fetch 0 AfterDelay;
            CtxCancel GoContext.DeadlineExceeded; Fetch 2 CtxDone]).
  reflexivity.
Defined.

(** ** A worker whose fetch fails *)




(** ** One close *)

(** C4.  [out] is closed exactly once.  At most once: in every state of a
    dispatch [close(out)] has run no more than one time, and it has run
    exactly when the aggregator has returned.  Never again: an action from a
    state in which [out] is closed leaves it closed, with the same contents.
    The early end is no exception: when the aggregator's select takes
    [<-ctx.Done()], the stream goes from open to closed in that action.  At
    least once: from every state of a dispatch the close can be reached, and
    a state in which nothing but cancellations can still happen has [out]
    closed. *)
Theorem out_closed_exactly_once urls c sched s :
  run urls sched (fanout_fetch c urls) = Some s →
  closes s ≤ 1
  ∧ (closes s = 1 ↔ agg s = AReturned)
  ∧ (∀ l s', exec urls l s = Some s' →
       closes s ≤ closes s' ≤ 1
       ∧ (closes s = 1 → out s' = out s)
       ∧ (l = AggDone → closes s = 0 ∧ closes s' = 1 ∧ out s' = out s))
  ∧ (∃ sched' s', run urls sched' s = Some s' ∧ closes s' = 1)
  ∧ ((∀ l s', exec urls l s = Some s' → ∃ e, l = CtxCancel e) →
     closes s = 1).
Proof.
  intros Hrun. pose proof (inv_reachable urls c sched s Hrun) as Hinv.
  split_and!.
  - by eapply inv_closes_le.
  - split.
    + intros Hcl. by destruct (inv_closed urls s Hinv Hcl).
    + by eapply inv_returned.
  - intros l s' Hexec.
    pose proof (inv_exec urls l s s' Hinv Hexec) as Hinv'.
    destruct (exec_out_grows urls l s s' Hexec) as [_ Hle].
    pose proof (inv_closes_le urls s' Hinv'). split_and!; try done.
    + intros Hcl. destruct (inv_closed urls s Hinv Hcl) as [Ha _].
      by destruct (exec_returned urls l s s' Ha Hexec) as (_ & ? & _).
    + intros ->. simpl in Hexec.
      destruct Hinv as [Hagg _ _ _]. unfold agg_ok in Hagg.
      destruct (agg s) as [| i | |]; try done.
      destruct (ctx s); [|done]. case_decide; simplify_eq.
      simpl. destruct Hagg as (_ & _ & ->). done.
  - destruct (inv_can_close urls s Hinv) as (sched' & s' & _ & ? & ?).
    by exists sched', s'.
  - intros Hquiet.
    destruct (inv_progress urls s Hinv) as [Hcl|(l & s' & Hl & Hexec)];
      [done|].
    destruct (Hquiet l s' Hexec) as [e ->]. by destruct (Hl e).
Qed.

Lemma out_closed_exactly_once_witness :
  run FanOutFanInWithContext_urls sched_timeout FanOutFanInWithContext
  = Some state_timeout
  ∧ (closes state_timeout ≤ 1
     ∧ (closes state_timeout = 1 ↔ agg state_timeout = AReturned)
     ∧ (∀ l s',
          exec FanOutFanInWithContext_urls l state_timeout = Some s' →
          closes state_timeout ≤ closes s' ≤ 1
          ∧ (closes state_timeout = 1 → out s' = out state_timeout)
          ∧ (l = AggDone →
             closes state_timeout = 0 ∧ closes s' = 1
             ∧ out s' = out state_timeout))
     ∧ (∃ sched' s',
          run FanOutFanInWithContext_urls sched' state_timeout = Some s'
          ∧ closes s' = 1)
     ∧ ((∀ l s',
           exec FanOutFanInWithContext_urls l state_timeout = Some s' →
           ∃ e, l = CtxCancel e) →
        closes state_timeout = 1)).
Proof.
  split; [reflexivity|].
  apply (out_closed_exactly_once FanOutFanInWithContext_urls
           GoContext.WithTimeout sched_timeout state_timeout).
  reflexivity.
Defined.

(** ** No urls *)

(** C5, counterexample.  No urls, hence concurrency 0.  [fanout_fetch] makes
    [out], starts the aggregator goroutine and returns [out]: one goroutine
    runs, and no error is reported (the function has no error result). *)
Lemma rejected_before_any_goroutine_refuted :
  ¬ rejected_before_any_goroutine [] GoContext.WithTimeout.
Proof.
  intros Hclaim. specialize (Hclaim (le_n 0)). discriminate Hclaim.
Qed.

(** C5, as the code has it.  [fanout_fetch] takes no concurrency setting and
    reports no error: the number of workers is the number of urls.  When
    that is zero the call still returns an open stream and has started the
    aggregator goroutine, and only that one: in every state of the dispatch
    there is no worker, so no fetch begins, nothing is emitted, and the
    two actions left to the aggregator close the empty stream. *)
Theorem dispatch_of_no_urls urls c :
  concurrency urls ≤ 0 →
  goroutines (fanout_fetch c urls) = 1
  ∧ closes (fanout_fetch c urls) = 0
  ∧ (∀ sched s,
       run urls sched (fanout_fetch c urls) = Some s →
       workers s = [] ∧ goroutines s = 1 ∧ out s = [])
  ∧ (∃ s,
       run urls [FanInStart; LoopEnd] (fanout_fetch c urls) = Some s
       ∧ closes s = 1 ∧ out s = []).
Proof.
  unfold concurrency. intros Hlen.
  assert (urls = []) as -> by (destruct urls; [done | simpl in Hlen; lia]).
  split_and!; try done.
  - intros sched s Hrun.
    pose proof (inv_reachable [] c sched s Hrun) as Hinv.
    pose proof (inv_out_length [] s Hinv) as Hout.
    assert (workers s = []) as Hws.
    { destruct Hinv as [Hagg _ _ _]. unfold agg_ok in Hagg.
      apply (fmap_nil_inv fst).
      destruct (agg s); destruct_and!;
        repeat match goal with
          | H : _ ++ _ = [] |- _ => apply app_eq_nil in H as [? ?]
          end; done. }
    unfold goroutines. rewrite Hws. split_and!; try done.
    destruct (out s); [done | simpl in Hout; lia].
  - eexists. by split_and!.
Qed.

Lemma dispatch_of_no_urls_witness :
  concurrency [] ≤ 0
  ∧ (goroutines (fanout_fetch GoContext.WithTimeout []) = 1
     ∧ closes (fanout_fetch GoContext.WithTimeout []) = 0
     ∧ (∀ sched s,
          run [] sched (fanout_fetch GoContext.WithTimeout []) = Some s →
          workers s = [] ∧ goroutines s = 1 ∧ out s = [])
     ∧ (∃ s,
          run [] [FanInStart; LoopEnd]
            (fanout_fetch GoContext.WithTimeout []) = Some s
          ∧ closes s = 1 ∧ out s = [])).
Proof.
  split; [simpl; lia|].
  apply (dispatch_of_no_urls [] GoContext.WithTimeout). simpl. lia.
Defined.

(** ** The aggregator's select *)

(** C6, counterexample.  One url; its worker's timer fires, so the worker
    holds [Data from a.com] and waits at [resultCh <- data]; then the
    deadline fires.  Both cases of the aggregator's select are ready.  Taking
    the result is possible, against the first half; taking [<-ctx.Done()] is
    possible too, and closes the stream without the result that was complete
    before the deadline, against the second half. *)
Lemma select_precedence_refuted :
  ¬ cancellation_takes_precedence ["a.com"%string] GoContext.WithTimeout
  ∧ ¬ produced_results_delivered ["a.com"%string] GoContext.WithTimeout.
Proof.
  split.
  - intros Hclaim.
    specialize (Hclaim
      [GoWorker; FanInStart; Fetch 0 AfterDelay;
       CtxCancel GoContext.DeadlineExceeded] _ 0 eq_refl).
    simpl in Hclaim. by specialize (Hclaim (mk_is_Some _ _ eq_refl)).
  - intros Hclaim.
    specialize (Hclaim
      [GoWorker; FanInStart; Fetch 0 AfterDelay] _ 0 "a.com"%string
      "Data from a.com"%string
      [CtxCancel GoContext.DeadlineExceeded; AggDone] _
      eq_refl eq_refl eq_refl eq_refl eq_refl).
    simpl in Hclaim. by apply elem_of_nil in Hclaim.
Qed.

(** C6, as the code has it.  When a worker waits to send and the context is
    done, both cases of the aggregator's select can be taken: the select has
    no precedence.  What is kept is what the aggregator has already
    received: a result in its hand at [out <- result] is in the stream
    whenever the stream is closed.  A result still with its worker when the
    select takes [<-ctx.Done()] is not covered. *)
Theorem select_takes_either_case urls c sched s :
  run urls sched (fanout_fetch c urls) = Some s →
  (∀ i k u data,
     agg s = ASelect i → is_Some (ctx s) →
     workers s !! k = Some (u, WSend data) →
     (∃ s1, exec urls (ResultCh k) s = Some s1 ∧ agg s1 = AOut i data)
     ∧ (∃ s2, exec urls AggDone s = Some s2 ∧ closes s2 = 1
              ∧ out s2 = out s))
  ∧ (∀ i result sched' s',
       agg s = AOut i result → run urls sched' s = Some s' →
       closes s' = 1 → result ∈ out s').
Proof.
  intros Hrun. pose proof (inv_reachable urls c sched s Hrun) as Hinv.
  split.
  - intros i k u data Ha [err Hc] Hk.
    assert (i < length urls) as Hi.
    { destruct Hinv as [Hagg Hres _ _]. unfold agg_ok in Hagg.
      rewrite Ha in Hagg, Hres. destruct Hagg as (Hurls & Hout & Hcl).
      apply Permutation_length in Hres. simpl in Hres.
      rewrite app_nil_r in Hres.
      pose proof (sent_by_lt (workers s) k u (WSend data) Hk) as Hlt.
      rewrite <-Hurls, length_fmap. rewrite <-Hout, Hres. by apply Hlt. }
    simpl. rewrite Hk, Ha, Hc. rewrite !decide_True by done.
    split; eexists; split_and!; try done.
    simpl. destruct Hinv as [Hagg _ _ _]. unfold agg_ok in Hagg.
    rewrite Ha in Hagg. destruct Hagg as (_ & _ & ->). done.
  - intros i result sched' s' Ha Hrun' Hcl.
    assert (closes s = 0) as Hcl0.
    { destruct Hinv as [Hagg _ _ _]. unfold agg_ok in Hagg.
      rewrite Ha in Hagg. by destruct_and!. }
    destruct (run_in_hand urls sched' s s' i result) as [[_ Hcl']|Hin];
      [by left | done | congruence | done].
Qed.

Lemma select_takes_either_case_witness :
  let urls := ["a.com"%string] in
  let s := State None [("a.com", WSent)]%string
             (AOut 0 "Data from a.com"%string) CRange [] 0 [] in
  run urls [GoWorker; FanInStart; Fetch 0 AfterDelay; ResultCh 0]
    (fanout_fetch GoContext.WithTimeout urls) = Some s
  ∧ ((∀ i k u data,
        agg s = ASelect i → is_Some (ctx s) →
        workers s !! k = Some (u, WSend data) →
        (∃ s1, exec urls (ResultCh k) s = Some s1 ∧ agg s1 = AOut i data)
        ∧ (∃ s2, exec urls AggDone s = Some s2 ∧ closes s2 = 1
                 ∧ out s2 = out s))
     ∧ (∀ i result sched' s',
          agg s = AOut i result → run urls sched' s = Some s' →
          closes s' = 1 → result ∈ out s')).
Proof.
  split; [reflexivity|].
  apply (select_takes_either_case ["a.com"%string] GoContext.WithTimeout
           [GoWorker; FanInStart; Fetch 0 AfterDelay; ResultCh 0]).
  reflexivity.
Defined.

(** ** At most one result per item *)

(** C7.  The results that have left the workers, those in [out] and the one
    the aggregator may hold, are payloads of the urls, no url used more often
    than it occurs in [urls]; so the stream never holds more results than
    there are urls, and holds no result twice when the urls are distinct. *)
Theorem at_most_one_result_per_item urls c sched s :
  run urls sched (fanout_fetch c urls) = Some s →
  out s ++ in_hand (agg s) ⊆+ data_from <$> urls
  ∧ length (out s) ≤ length urls
  ∧ (NoDup urls → NoDup (out s)).
Proof.
  intros Hrun. pose proof (inv_reachable urls c sched s Hrun) as Hinv.
  pose proof (inv_out_submseteq urls s Hinv) as Hsub.
  split_and!; [done | by apply inv_out_length |].
  intros Hnd. eapply (submseteq_NoDup (out s ++ in_hand (agg s))) in Hsub.
  - by apply NoDup_app in Hsub as (? & _ & _).
  - by apply (NoDup_fmap_2 data_from).
Qed.

Lemma at_most_one_result_per_item_witness :
  run FanOutFanInWithContext_urls sched_all FanOutFanInWithContext
  = Some state_all
  ∧ (out state_all ++ in_hand (agg state_all)
       ⊆+ data_from <$> FanOutFanInWithContext_urls
     ∧ length (out state_all) ≤ length FanOutFanInWithContext_urls
     ∧ (NoDup FanOutFanInWithContext_urls → NoDup (out state_all))).
Proof.
  split; [reflexivity|].
  apply (at_most_one_result_per_item FanOutFanInWithContext_urls
           GoContext.WithTimeout sched_all state_all).
  reflexivity.
Defined.

(** ** Cancelling twice *)

(** C8.  Cancellation is idempotent.  On the context: a second trigger,
    whatever its cause, leaves the error of the first.  On a dispatch: in
    any schedule, from any state, a second trigger that comes after a first
    one (the deadline firing and then the deferred [cancel()] of
    [FanOutFanInWithContext], say) can be left out without changing the
    outcome of the schedule: the same state is reached, with the same
    stream, workers and printed lines, or the schedule is refused at the
    same point. *)
Theorem cancel_twice_is_cancel_once urls e1 e2 sched1 sched2 s :
  GoContext.cancel e2 (GoContext.cancel e1 (ctx s))
  = GoContext.cancel e1 (ctx s)
  ∧ run urls (CtxCancel e1 :: sched1 ++ CtxCancel e2 :: sched2) s
    = run urls (CtxCancel e1 :: sched1 ++ sched2) s.
Proof.
  split.
  - by destruct (ctx s).
  - simpl.
    set (s1 := State (GoContext.cancel e1 (ctx s)) (workers s) (agg s)
                 (consumer s) (out s) (closes s) (stdout s)).
    assert (is_Some (ctx s1)) as [err Hc] by (simpl; by destruct (ctx s)).
    rewrite !run_app.
    destruct (run urls sched1 s1) as [s2|] eqn:Hrun1; [|reflexivity].
    change (run urls (CtxCancel e2 :: sched2) s2 = run urls sched2 s2).
    rewrite run_cons, exec_cancel_again; [done|].
    exists err. by eapply run_ctx_stable.
Qed.

(** ** Workers left behind *)

(** C9, the failing run.  One url.  The worker's timer fires and the worker
    waits at [resultCh <- data]; the deadline fires; the aggregator's select
    takes [<-ctx.Done()], the aggregator returns and [out] is closed.  The
    send on [resultCh] is not inside a select on [ctx.Done()], and nothing
    receives from [resultCh] any more: in every state the dispatch can reach
    from there the worker is still at its send.  The goroutine never
    exits. *)
Theorem sender_blocked_after_cancellation :
  ∃ s,
    run ["a.com"%string]
      [GoWorker; FanInStart; Fetch 0 AfterDelay;
       CtxCancel GoContext.DeadlineExceeded; AggDone]
      (fanout_fetch GoContext.WithTimeout ["a.com"%string])
    = Some s
    ∧ closes s = 1 ∧ agg s = AReturned
    ∧ workers s = [("a.com", WSend "Data from a.com")]%string
    ∧ ∀ sched' s',
        run ["a.com"%string] sched' s = Some s' →
        workers s' !! 0 = Some ("a.com", WSend "Data from a.com")%string.
Proof.
  eexists. split_and!; [reflexivity..|].
  intros sched' s' Hrun'.
  eapply run_returned in Hrun' as (_ & _ & _ & Hws); [|reflexivity].
  by apply Hws.
Qed.

(** ** The value of a success *)

(** C10.  A success carries ["Data from "] followed by the url, and nothing
    else decides it: [fan_in_out_fetch] returns that string on success for
    whatever context; a worker about to send holds that string for its own
    url; and every result in the stream is that string for one of the urls
    of the dispatch.  The results are those of their items: what has left
    the workers, in the stream or in the aggregator's hand, is exactly, with
    multiplicity, the payloads of the urls of the workers that have sent;
    the aggregator takes from a worker the string that worker holds, and
    puts on [out] the string it took. *)
Theorem success_is_data_from_url urls c sched s :
  run urls sched (fanout_fetch c urls) = Some s →
  (∀ c' branch url data,
     fan_in_out_fetch c' branch url = Some (data, None) →
     data = ("Data from " +:+ url)%string)
  ∧ (∀ k url data,
       workers s !! k = Some (url, WSend data) →
       data = ("Data from " +:+ url)%string)
  ∧ (∀ result,
       result ∈ out s →
       ∃ url, url ∈ urls ∧ result = ("Data from " +:+ url)%string)
  ∧ out s ++ in_hand (agg s) ≡ₚ workers s ≫= sent_by
  ∧ (∀ k url data s',
       workers s !! k = Some (url, WSend data) →
       exec urls (ResultCh k) s = Some s' →
       in_hand (agg s') = [("Data from " +:+ url)%string]
       ∧ workers s' !! k = Some (url, WSent) ∧ out s' = out s)
  ∧ (∀ i result s',
       agg s = AOut i result → exec urls Out s = Some s' →
       out s' = out s ++ [result] ∧ in_hand (agg s') = []).
Proof.
  intros Hrun. pose proof (inv_reachable urls c sched s Hrun) as Hinv.
  assert (∀ k url data,
            workers s !! k = Some (url, WSend data) →
            data = ("Data from " +:+ url)%string) as Hsend.
  { intros k url data Hk. destruct Hinv as [_ _ Hws _].
    eapply Forall_lookup_1 in Hws; [|exact Hk]. exact Hws. }
  split_and!.
  - intros c' branch url data Hf.
    destruct branch; simpl in Hf; [by simplify_eq|].
    by destruct c'; simplify_eq.
  - exact Hsend.
  - intros result Hin.
    pose proof (inv_out_submseteq urls s Hinv) as Hsub.
    assert (result ∈ data_from <$> urls) as Hres.
    { eapply elem_of_submseteq; [|exact Hsub]. apply elem_of_app. by left. }
    apply list_elem_of_fmap in Hres as (url & -> & Hurl). by exists url.
  - by destruct Hinv.
  - intros k url data s' Hk Hexec. rewrite (Hsend k url data Hk) in Hk.
    simpl in Hexec. rewrite Hk in Hexec.
    destruct (agg s) as [| i | |]; try done. case_decide; simplify_eq.
    simpl. split_and!; [done| |done].
    apply list_lookup_insert_eq. by eapply lookup_lt_Some.
  - intros i result s' Ha Hexec. simpl in Hexec. rewrite Ha in Hexec.
    destruct (consumer s); by simplify_eq.
Qed.

Lemma success_is_data_from_url_witness :
  let urls := FanOutFanInWithContext_urls in
  let sched :=
    [GoWorker; GoWorker; GoWorker; GoWorker; FanInStart;
     Fetch 2 AfterDelay; ResultCh 2; Out; Println; Fetch 0 AfterDelay;
     Fetch 1 AfterDelay; ResultCh 0] in
  let s :=
    State None
      [("a.com", WSent); ("b.com", WSend "Data from b.com");
       ("c.com", WSent); ("d.com", WFetch)]%string
      (AOut 1 "Data from a.com") CRange ["Data from c.com"%string] 0
      ["Result: Data from c.com"%string] in
  run urls sched FanOutFanInWithContext = Some s
  ∧ ((∀ c' branch url data,
        fan_in_out_fetch c' branch url = Some (data, None) →
        data = ("Data from " +:+ url)%string)
     ∧ (∀ k url data,
          workers s !! k = Some (url, WSend data) →
          data = ("Data from " +:+ url)%string)
     ∧ (∀ result,
          result ∈ out s →
          ∃ url, url ∈ urls ∧ result = ("Data from " +:+ url)%string)
     ∧ out s ++ in_hand (agg s) ≡ₚ workers s ≫= sent_by
     ∧ (∀ k url data s',
          workers s !! k = Some (url, WSend data) →
          exec urls (ResultCh k) s = Some s' →
          in_hand (agg s') = [("Data from " +:+ url)%string]
          ∧ workers s' !! k = Some (url, WSent) ∧ out s' = out s)
     ∧ (∀ i result s',
          agg s = AOut i result → exec urls Out s = Some s' →
          out s' = out s ++ [result] ∧ in_hand (agg s') = [])).
Proof.
  split; [reflexivity|].
  apply (success_is_data_from_url FanOutFanInWithContext_urls
           GoContext.WithTimeout
           [GoWorker; GoWorker; GoWorker; GoWorker; FanInStart;
            Fetch 2 AfterDelay; ResultCh 2; Out; Println;
            Fetch 0 AfterDelay; Fetch 1 AfterDelay; ResultCh 0]).
  reflexivity.
Defined.


(** * More on the dispatch *)

(** ** The printed lines *)

Section Stdout.

Variable urls : list string.

Lemma failures_update (ws : list (string * worker_pc)) k w w' :
  ws !! k = Some w →
  failures (<[k:=w']> ws) + failed w = failures ws + failed w'.
Proof.
  intros Hk. destruct (workers_update ws k w w' Hk) as (l1 & l2 & -> & ->).
  unfold failures. rewrite !fmap_app, !fmap_cons, !sum_list_with_app.
  simpl. lia.
Qed.

Lemma line_ok_mono s s' line :
  out s `prefix_of` out s' → (∀ err, ctx s = Some err → ctx s' = Some err) →
  line_ok s line → line_ok s' line.
Proof.
  intros [suffix Hout] Hc [(result & Hin & ->)|(err & Herr & Hline)].
  - left. exists result. split; [|done]. rewrite Hout.
    apply elem_of_app. by left.
  - right. exists err. split; [by apply Hc | done].
Qed.

Lemma sublist_insert_middle {A} (l k1 k2 : list A) x :
  l `sublist_of` k1 ++ k2 → l `sublist_of` (k1 ++ [x]) ++ k2.
Proof.
  intros Hsub. etrans; [exact Hsub|]. rewrite <-(assoc_L (++)).
  apply sublist_app; [done|]. simpl. by apply sublist_cons.
Qed.

Lemma inv_stdout_init c : inv_stdout urls (fanout_fetch c urls).
Proof. split; [done | constructor | done | done | done]. Qed.

Lemma inv_stdout_exec l s s' :
  inv urls s → inv_stdout urls s → exec urls l s = Some s' →
  inv_stdout urls s'.
Proof.
  intros Hinv [Hcount Hok Hpend Hres Hquiet] Hexec.
  pose proof (inv_out_length urls s Hinv) as Hlen.
  assert (Forall (line_ok s') (stdout s)) as Hok'.
  { eapply Forall_impl; [exact Hok|]. intros line. apply line_ok_mono.
    - by destruct (exec_out_grows urls l s s' Hexec).
    - intros err. by apply (exec_ctx_stable urls l). }
  destruct Hinv as [Hagg _ _ _]. unfold agg_ok in Hagg.
  unfold cancelled_line in Hcount.
  destruct l; simpl in Hexec.
  - (* CtxCancel *)
    simplify_eq. split; simpl in *; [done|done|done|done|].
    intros Hc. destruct (ctx s); [done|]. discriminate Hc.
  - (* GoWorker *)
    destruct (agg s) as [[|u rest]| | |] eqn:Ha; simplify_eq.
    split; unfold cancelled_line, failures; simpl in *; [|done..].
    rewrite fmap_app, sum_list_with_app. unfold failures in Hcount.
    simpl. lia.
  - (* FanInStart *)
    destruct (agg s) as [[|u rest]| | |] eqn:Ha; simplify_eq.
    split; unfold cancelled_line; simpl in *; [lia|done..].
  - (* Fetch *)
    destruct (workers s !! k) as [[u pc]|] eqn:Hk; [|done].
    destruct pc; try done.
    destruct (fan_in_out_fetch (ctx s) b u) as [[data [err|]]|] eqn:Hf;
      simplify_eq.
    + assert (ctx s = Some err) as Hc.
      { destruct b; simpl in Hf; [done|]. by destruct (ctx s); simplify_eq. }
      pose proof (failures_update (workers s) k _ (u, WFailed) Hk) as Hsum.
      split; unfold cancelled_line; simpl in *.
      * rewrite length_app. simpl. unfold failed in Hsum. simpl in Hsum.
        lia.
      * apply Forall_app. split; [done|]. constructor; [|constructor].
        right. exists err. by split; [|left].
      * done.
      * by apply sublist_insert_middle.
      * intros Hc'. congruence.
    + pose proof (failures_update (workers s) k _ (u, WSend data) Hk)
        as Hsum.
      split; unfold cancelled_line; simpl in *; [|done..].
      unfold failed in Hsum. simpl in Hsum. lia.
  - (* ResultCh *)
    destruct (workers s !! k) as [[u pc]|] eqn:Hk; [|done].
    destruct pc as [|data| |]; try done.
    destruct (agg s) as [| i | |] eqn:Ha; try done.
    case_decide; simplify_eq.
    pose proof (failures_update (workers s) k _ (u, WSent) Hk) as Hsum.
    split; unfold cancelled_line; simpl in *; [|done..].
    unfold failed in Hsum. simpl in Hsum. lia.
  - (* AggDone *)
    destruct (agg s) as [| i | |] eqn:Ha; try done.
    destruct (ctx s) as [err|] eqn:Hc; [|done].
    case_decide; simplify_eq. destruct Hagg as (_ & Hout & _).
    split; unfold cancelled_line; simpl in *.
    + rewrite length_app, decide_True by lia. simpl. lia.
    + apply Forall_app. split; [done|]. constructor; [|constructor].
      right. exists err. by split; [|right].
    + done.
    + by apply sublist_insert_middle.
    + done.
  - (* Out *)
    destruct (agg s) as [| | i result |] eqn:Ha; try done.
    destruct (consumer s) eqn:Hp; simplify_eq.
    simpl in Hcount, Hres, Hquiet. rewrite app_nil_r in Hres, Hquiet.
    split; unfold cancelled_line; simpl in *.
    + rewrite !length_app. simpl. lia.
    + done.
    + intros data [= <-]. apply last_snoc.
    + rewrite fmap_app. by apply sublist_app.
    + intros Hc. rewrite fmap_app, Hquiet by done. done.
  - (* LoopEnd *)
    destruct (agg s) as [| i | |] eqn:Ha; try done.
    case_decide; simplify_eq. destruct Hagg as (_ & Hout & _).
    split; unfold cancelled_line; simpl in *; [|done..].
    rewrite decide_False by lia. lia.
  - (* Println *)
    destruct (consumer s) as [|data|] eqn:Hp; simplify_eq.
    simpl in Hcount, Hres, Hquiet.
    split; unfold cancelled_line; simpl in *.
    + rewrite length_app. simpl. lia.
    + apply Forall_app. split; [done|]. constructor; [|constructor].
      left. exists data. split; [|done].
      destruct (proj1 (last_Some _ _) (Hpend data eq_refl)) as [l' ->].
      apply elem_of_app. right. by apply list_elem_of_singleton.
    + done.
    + by rewrite app_nil_r.
    + intros Hc. rewrite app_nil_r. by apply Hquiet.
  - (* RangeEnd *)
    destruct (consumer s) eqn:Hp; try done.
    destruct (closes s) eqn:Hcl; simplify_eq.
    split; unfold cancelled_line; simpl in *; done.
Qed.

Lemma inv_stdout_run sched s s' :
  inv urls s → inv_stdout urls s → run urls sched s = Some s' →
  inv_stdout urls s'.
Proof.
  revert s. induction sched as [|l sched IH]; intros s Hinv Hst Hrun;
    simpl in *.
  - by simplify_eq.
  - destruct (exec urls l s) as [s1|] eqn:Hexec; [|done].
    eauto using inv_exec, inv_stdout_exec.
Qed.

Lemma inv_stdout_reachable c sched s :
  run urls sched (fanout_fetch c urls) = Some s → inv_stdout urls s.
Proof. apply inv_stdout_run; [apply inv_init | apply inv_stdout_init]. Qed.

End Stdout.

Lemma sent_by_all (ws : list (string * worker_pc)) :
  length (ws ≫= sent_by) = length ws → Forall (λ w, w.2 = WSent) ws.
Proof.
  intros Hlen. apply Forall_lookup. intros k [u pc] Hk. simpl.
  destruct (decide (pc = WSent)) as [|Hpc]; [done|].
  pose proof (sent_by_lt ws k u pc Hk Hpc). lia.
Qed.

(** The consumer prints in its own time. *)
Example FanOutFanInWithContext_late_print :
  run FanOutFanInWithContext_urls sched_late_print FanOutFanInWithContext
  = Some state_late_print.
Proof. reflexivity. Qed.

(** X1.  What a dispatch has printed is accounted for line by line.  Together
    with the line the consumer may be about to print, there is one line for
    each result delivered, one for each worker that failed, and one more if
    the aggregator left through [<-ctx.Done()].  Every line either reports a
    delivered result or names the error of the context, so all error lines
    of one dispatch give the same cause.  The [Result:] lines come in the
    order of delivery, whatever is printed between them; the result the
    consumer is about to print is the last one delivered; and once the
    consumer's loop is over every delivered result has its line. *)
Theorem printed_lines_accounted urls c sched s :
  run urls sched (fanout_fetch c urls) = Some s →
  length (stdout s) + length (to_print (consumer s))
  = length (out s) + failures (workers s) + cancelled_line urls s
  ∧ Forall (line_ok s) (stdout s)
  ∧ (∀ data, consumer s = CPrintln data → last (out s) = Some data)
  ∧ result_line <$> out s
      `sublist_of` stdout s ++ (result_line <$> to_print (consumer s))
  ∧ (consumer s = CEnded →
     closes s = 1 ∧ result_line <$> out s `sublist_of` stdout s).
Proof.
  intros Hrun.
  destruct (inv_reachable urls c sched s Hrun) as [_ _ _ Hcons].
  destruct (inv_stdout_reachable urls c sched s Hrun)
    as [Hcount Hok Hpend Hres _].
  split_and!; try done.
  intros Hp. split; [by apply Hcons|].
  rewrite Hp in Hres. simpl in Hres. by rewrite app_nil_r in Hres.
Qed.

Lemma printed_lines_accounted_witness :
  run FanOutFanInWithContext_urls sched_late_print FanOutFanInWithContext
  = Some state_late_print
  ∧ (length (stdout state_late_print)
     + length (to_print (consumer state_late_print))
     = length (out state_late_print) + failures (workers state_late_print)
       + cancelled_line FanOutFanInWithContext_urls state_late_print
     ∧ Forall (line_ok state_late_print) (stdout state_late_print)
     ∧ (∀ data,
          consumer state_late_print = CPrintln data →
          last (out state_late_print) = Some data)
     ∧ result_line <$> out state_late_print
         `sublist_of`
           stdout state_late_print
           ++ (result_line <$> to_print (consumer state_late_print))
     ∧ (consumer state_late_print = CEnded →
        closes state_late_print = 1
        ∧ result_line <$> out state_late_print
            `sublist_of` stdout state_late_print)).
Proof.
  split; [reflexivity|].
  apply (printed_lines_accounted FanOutFanInWithContext_urls
           GoContext.WithTimeout sched_late_print state_late_print).
  reflexivity.
Defined.

(** X2.  While the context is not done a dispatch is quiet and clean: what
    it has printed, followed by the line the consumer may be about to
    print, is the [Result:] lines of the delivered results, in the order of
    delivery, and nothing else; no worker has failed; once the stream is
    closed every worker goroutine, one per url, has sent its result and
    ended; and once the consumer's loop is over the output is exactly one
    [Result:] line for each url. *)
Theorem quiet_without_cancellation urls c sched s :
  run urls sched (fanout_fetch c urls) = Some s →
  ctx s = None →
  stdout s ++ (result_line <$> to_print (consumer s)) = result_line <$> out s
  ∧ failures (workers s) = 0
  ∧ (closes s = 1 →
     (workers s).*1 = urls ∧ Forall (λ w, w.2 = WSent) (workers s))
  ∧ (consumer s = CEnded →
     stdout s = result_line <$> out s ∧ out s ≡ₚ data_from <$> urls).
Proof.
  intros Hrun Hc.
  pose proof (inv_reachable urls c sched s Hrun) as Hinv.
  destruct (inv_stdout_reachable urls c sched s Hrun)
    as [Hcount _ _ _ Hquiet].
  specialize (Hquiet Hc).
  assert (closes s = 1 → length (out s) = length urls ∧ agg s = AReturned)
    as Hclosed.
  { intros Hcl.
    destruct (inv_closed urls s Hinv Hcl) as [Ha [Hlen|[[err Herr] _]]];
      [done|congruence]. }
  split_and!; [done| | |].
  - apply (f_equal length) in Hquiet.
    rewrite length_app, !length_fmap in Hquiet. lia.
  - intros Hcl. destruct (Hclosed Hcl) as [Hlen Ha].
    destruct Hinv as [Hagg Hres _ _]. unfold agg_ok in Hagg.
    rewrite Ha in Hagg, Hres. destruct Hagg as (Hurls & _).
    split; [done|]. apply sent_by_all.
    apply Permutation_length in Hres. simpl in Hres.
    rewrite app_nil_r in Hres. rewrite <-Hres, Hlen, <-Hurls.
    by rewrite length_fmap.
  - intros Hp. rewrite Hp in Hquiet. simpl in Hquiet.
    rewrite app_nil_r in Hquiet. split; [done|].
    destruct (Hclosed (inv_consumer urls s Hinv Hp)) as [Hlen Ha].
    by apply inv_complete.
Qed.

Lemma quiet_without_cancellation_witness :
  run FanOutFanInWithContext_urls sched_all FanOutFanInWithContext
  = Some state_all
  ∧ ctx state_all = None
  ∧ (stdout state_all ++ (result_line <$> to_print (consumer state_all))
     = result_line <$> out state_all
     ∧ failures (workers state_all) = 0
     ∧ (closes state_all = 1 →
        (workers state_all).*1 = FanOutFanInWithContext_urls
        ∧ Forall (λ w, w.2 = WSent) (workers state_all))
     ∧ (consumer state_all = CEnded →
        stdout state_all = result_line <$> out state_all
        ∧ out state_all ≡ₚ data_from <$> FanOutFanInWithContext_urls)).
Proof.
  split; [reflexivity|]. split; [reflexivity|].
  apply (quiet_without_cancellation FanOutFanInWithContext_urls
           GoContext.WithTimeout sched_all state_all);
    reflexivity.
Defined.

(** ** Goroutines of a dispatch *)

(** X3.  Once the aggregator has returned, a worker that waits at
    [resultCh <- data] waits for ever, whatever the urls and whatever
    happened before: in every later state it is still at its send, and its
    result, the payload of its url, never reaches [out]. *)
Theorem blocked_senders_stay urls c sched s k u data sched' s' :
  run urls sched (fanout_fetch c urls) = Some s →
  agg s = AReturned →
  workers s !! k = Some (u, WSend data) →
  run urls sched' s = Some s' →
  workers s' !! k = Some (u, WSend data)
  ∧ data = data_from u ∧ out s' = out s ∧ closes s' = 1.
Proof.
  intros Hrun Ha Hk Hrun'.
  pose proof (inv_reachable urls c sched s Hrun) as Hinv.
  destruct (run_returned urls sched' s s' Ha Hrun') as (_ & Ho & Hcl & Hws).
  split_and!; [by apply Hws| |done|].
  - destruct Hinv as [_ _ Hw _].
    eapply Forall_lookup_1 in Hw; [|exact Hk]. exact Hw.
  - rewrite Hcl. by eapply inv_returned.
Qed.

Lemma blocked_senders_stay_witness :
  run FanOutFanInWithContext_urls sched_timeout FanOutFanInWithContext
  = Some state_timeout
  ∧ agg state_timeout = AReturned
  ∧ workers state_timeout !! 0
    = Some ("a.com", WSend "Data from a.com")%string
  ∧ run FanOutFanInWithContext_urls [CtxCancel GoContext.Canceled]
      state_timeout
    = Some state_timeout
  ∧ (workers state_timeout !! 0
     = Some ("a.com", WSend "Data from a.com")%string
     ∧ "Data from a.com"%string = data_from "a.com"
     ∧ out state_timeout = out state_timeout ∧ closes state_timeout = 1).
Proof.
  split_and!; [reflexivity..|].
  apply (blocked_senders_stay FanOutFanInWithContext_urls
           GoContext.WithTimeout sched_timeout state_timeout 0 "a.com"
           "Data from a.com" [CtxCancel GoContext.Canceled] state_timeout);
    reflexivity.
Defined.

(** X4.  Workers are started one per url, in the order of [urls]: the urls
    of the workers started so far are a prefix of [urls], all of [urls]
    once the fan-out loop is over, so a dispatch never runs more than
    [len(urls) + 1] goroutines and never two workers for one item. *)
Theorem one_worker_per_url urls c sched s :
  run urls sched (fanout_fetch c urls) = Some s →
  (workers s).*1 `prefix_of` urls
  ∧ goroutines s ≤ S (length urls)
  ∧ ((∀ rest, agg s ≠ AFanOut rest) → (workers s).*1 = urls).
Proof.
  intros Hrun.
  destruct (inv_reachable urls c sched s Hrun) as [Hagg _ _ _].
  unfold agg_ok in Hagg.
  assert ((workers s).*1 `prefix_of` urls) as Hpre.
  { destruct (agg s); destruct_and!; subst urls;
      [by apply prefix_app_r | done..]. }
  split_and!; [done| |].
  - unfold goroutines. apply prefix_length in Hpre.
    rewrite length_fmap in Hpre. lia.
  - intros Hna. destruct (agg s) as [rest| | |]; destruct_and!; try done.
    by destruct (Hna rest).
Qed.

Lemma one_worker_per_url_witness :
  let s := State None
             [("a.com", WSend "Data from a.com"); ("b.com", WFetch)]%string
             (AFanOut ["c.com"; "d.com"]%string) CRange [] 0 [] in
  run FanOutFanInWithContext_urls [GoWorker; GoWorker; Fetch 0 AfterDelay]
    FanOutFanInWithContext
  = Some s
  ∧ ((workers s).*1 `prefix_of` FanOutFanInWithContext_urls
     ∧ goroutines s ≤ S (length FanOutFanInWithContext_urls)
     ∧ ((∀ rest, agg s ≠ AFanOut rest) →
        (workers s).*1 = FanOutFanInWithContext_urls)).
Proof.
  split; [reflexivity|].
  apply (one_worker_per_url FanOutFanInWithContext_urls
           GoContext.WithTimeout [GoWorker; GoWorker; Fetch 0 AfterDelay]).
  reflexivity.
Defined.


(** * The WaitGroup samples: proofs *)

(** ** Schedules and list updates in general *)

Lemma run_with_inv {S L : Type} (step : L → S → option S) (P : S → Prop) :
  (∀ l s s', P s → step l s = Some s' → P s') →
  ∀ sched s s', P s → run_with step sched s = Some s' → P s'.
Proof.
  intros Hstep sched. induction sched as [|l sched IH]; intros s s' Hs Hrun;
    simpl in Hrun.
  - by simplify_eq.
  - destruct (step l s) as [s1|] eqn:Hl; [|done]. eauto.
Qed.

Lemma insert_split {A} (ws : list A) k w w' :
  ws !! k = Some w →
  ∃ l1 l2, ws = l1 ++ w :: l2 ∧ <[k:=w']> ws = l1 ++ w' :: l2.
Proof.
  intros Hk. exists (take k ws), (drop (S k) ws). split.
  - symmetry. by apply take_drop_middle.
  - apply insert_take_drop. by eapply lookup_lt_Some.
Qed.

Lemma sum_update {A} (f : A → nat) (ws : list A) k w w' :
  ws !! k = Some w →
  sum_list (f <$> <[k:=w']> ws) + f w = sum_list (f <$> ws) + f w'.
Proof.
  intros Hk. destruct (insert_split ws k w w' Hk) as (l1 & l2 & -> & ->).
  rewrite !fmap_app, !fmap_cons, !sum_list_with_app. simpl. lia.
Qed.

Lemma bind_update {A B} (f : A → list B) (ws : list A) k w w' extra :
  ws !! k = Some w → f w' = f w ++ extra →
  <[k:=w']> ws ≫= f ≡ₚ (ws ≫= f) ++ extra.
Proof.
  intros Hk Hf. destruct (insert_split ws k w w' Hk) as (l1 & l2 & -> & ->).
  rewrite !bind_app, !bind_cons, Hf, <-!(assoc_L (++)).
  apply Permutation_app_head, Permutation_app_head, Permutation_app_comm.
Qed.

Lemma fst_insert {A B} (ws : list (A * B)) k a b b' :
  ws !! k = Some (a, b) → (<[k:=(a, b')]> ws).*1 = ws.*1.
Proof.
  intros Hk. rewrite list_fmap_insert. apply list_insert_id.
  by rewrite list_lookup_fmap, Hk.
Qed.

Lemma sum_pos_lookup {A} (f : A → nat) (ws : list A) :
  0 < sum_list (f <$> ws) → ∃ k w, ws !! k = Some w ∧ 0 < f w.
Proof.
  induction ws as [|w ws IH]; [simpl; lia|]. intros Hpos.
  change (0 < f w + sum_list (f <$> ws)) in Hpos.
  destruct (decide (0 < f w)) as [Hw|Hw].
  - by exists 0, w.
  - destruct IH as (k & w' & Hk & Hw'); [lia|]. by exists (S k), w'.
Qed.

(** ** The invariant of the samples *)

Section WaitGroupSamples.

Variable bodies : list (list string).
Variable final : string.

Lemma wg_inv_start : wg_inv bodies final (wg_start bodies).
Proof.
  split; try done. exists []. split_and!; [done|done|constructor].
Qed.

Lemma printed_step body n line :
  body !! n = Some line →
  printed (body, At (S n)) = printed (body, At n) ++ [line].
Proof. intros Hn. unfold printed. simpl. by apply take_S_r. Qed.

Lemma printed_end body n :
  body !! n = None → printed (body, Ended) = printed (body, At n) ++ [].
Proof.
  intros Hn%lookup_ge_None_1. unfold printed. simpl.
  by rewrite app_nil_r, take_ge.
Qed.

Lemma wg_inv_exec l s s' :
  wg_inv bodies final s → wg_exec final l s = Some s' →
  wg_inv bodies final s'.
Proof.
  intros [Hmain Hcnt Hpan (lines & Hout & Hperm & Hsub)] Hexec.
  unfold wg_exec in Hexec. rewrite Hpan in Hexec.
  unfold wg_main_ok in Hmain. destruct l.
  - (* the starting function *)
    destruct (wg_main s) as [[|body rest]|body rest| | |] eqn:Hm;
      simpl in *.
    + injection Hexec as <-. split; unfold wg_main_ok; simpl.
      * by rewrite app_nil_r in Hmain.
      * done.
      * done.
      * exists lines. by split_and!.
    + unfold WaitGroup.Add in Hexec.
      rewrite decide_True in Hexec by lia. injection Hexec as <-.
      split; unfold wg_main_ok; simpl; [done|lia|done|].
      exists lines. by split_and!.
    + injection Hexec as <-. split; unfold wg_main_ok; simpl.
      * by rewrite fmap_app, <-(assoc_L (++)).
      * rewrite fmap_app, sum_list_with_app. simpl. lia.
      * done.
      * exists lines. rewrite app_nil_r in *. split_and!; [done| |].
        -- rewrite bind_app. simpl. by rewrite !app_nil_r.
        -- apply Forall_app. split; [done|]. constructor; [|constructor].
           apply sublist_nil_l.
    + unfold WaitGroup.Wait in Hexec. case_bool_decide as Hz; [|done].
      injection Hexec as <-.
      split; unfold wg_main_ok; simpl; [|lia|done|].
      * split; [done|]. apply Forall_lookup. intros k [body pc] Hk. simpl.
        destruct pc as [n|]; [|done].
        assert (0 < sum_list (live <$> wg_workers s)); [|lia].
        destruct (insert_split (wg_workers s) k _ (body, Ended) Hk)
          as (l1 & l2 & -> & _).
        rewrite fmap_app, fmap_cons, sum_list_with_app. simpl.
lia.
      * exists lines. by split_and!.
    + injection Hexec as <-.
      split; unfold wg_main_ok; simpl; [done|done|done|].
      exists lines. rewrite app_nil_r in Hout. rewrite Hout. by split_and!.
    + done.
  - (* worker k *)
    destruct (wg_workers s !! k) as [[body [n|]]|] eqn:Hk; try done.
    assert (last_line final (wg_main s) = []) as Hlast.
    { destruct (wg_main s); try done. destruct Hmain as [_ Hended].
      eapply Forall_lookup_1 in Hended; [|exact Hk]. done. }
    assert ((wg_workers s).*1 = (wg_workers s).*1) as _ by done.
    rewrite Hlast, app_nil_r in Hout.
    destruct (body !! n) as [line|] eqn:Hn.
    + injection Hexec as <-. split; unfold wg_main_ok; simpl.
      * erewrite fst_insert by done.
        destruct (wg_main s); try done. destruct Hmain as [_ Hended].
        eapply Forall_lookup_1 in Hended; [|exact Hk]. done.
      * pose proof (sum_update live (wg_workers s) k _ (body, At (S n)) Hk)
          as Hsum.
        unfold live in Hsum at 2 4. simpl in Hsum. lia.
      * done.
      * exists (lines ++ [line]). rewrite Hlast, app_nil_r, Hout.
        split_and!; [done| |].
        -- rewrite (bind_update printed _ k _ _ [line] Hk)
             by by apply printed_step.
           by rewrite Hperm.
        -- apply Forall_insert.
           ++ eapply Forall_impl; [exact Hsub|]. intros w.
              apply sublist_inserts_r.
           ++ rewrite (printed_step _ _ _ Hn). apply sublist_app; [|done].
              eapply Forall_lookup_1 in Hsub; [|exact Hk]. exact Hsub.
    + assert (0 < sum_list (live <$> wg_workers s)) as Hpos.
      { destruct (insert_split (wg_workers s) k _ (body, Ended) Hk)
          as (l1 & l2 & -> & _).
        rewrite fmap_app, fmap_cons, sum_list_with_app. simpl. lia. }
      unfold WaitGroup.Done, WaitGroup.Add in Hexec.
      rewrite decide_True in Hexec by lia. injection Hexec as <-.
      split; unfold wg_main_ok; simpl.
      * erewrite fst_insert by done.
        destruct (wg_main s); try done. destruct Hmain as [_ Hended].
        eapply Forall_lookup_1 in Hended; [|exact Hk]. done.
      * pose proof (sum_update live (wg_workers s) k _ (body, Ended) Hk)
          as Hsum.
        unfold live in Hsum at 2 4. simpl in Hsum. lia.
      * done.
      * exists lines. rewrite Hlast, app_nil_r, Hout.
        split_and!; [done| |].
        -- rewrite (bind_update printed _ k _ _ [] Hk)
             by by apply printed_end.
           by rewrite app_nil_r.
        -- apply Forall_insert; [done|].
           rewrite (printed_end _ _ Hn), app_nil_r.
           eapply Forall_lookup_1 in Hsub; [|exact Hk]. exact Hsub.
Qed.

Lemma wg_inv_reachable sched s :
  run_with (wg_exec final) sched (wg_start bodies) = Some s →
  wg_inv bodies final s.
Proof.
  apply (run_with_inv (wg_exec final) (wg_inv bodies final)).
  - intros l s1 s2. apply wg_inv_exec.
  - apply wg_inv_start.
Qed.

End WaitGroupSamples.

(** ** Progress and termination of the samples *)

Section WaitGroupLiveness.

Variable bodies : list (list string).
Variable final : string.

Lemma wg_todo_exec l s s' :
  wg_exec final l s = Some s' → wg_panicked s' = false →
  wg_todo s' < wg_todo s.
Proof.
  unfold wg_exec, wg_todo. intros Hexec Hpan.
  destruct (wg_panicked s); [done|]. destruct l.
  - destruct (wg_main s) as [[|body rest]|body rest| | |]; simpl in *.
    + injection Hexec as <-. simpl. lia.
    + destruct (WaitGroup.Add 1 (wg_counter s)); injection Hexec as <-;
        simpl in *; [|done].
      change (list_fmap _ _ ?f ?l) with (f <$> l). lia.
    + injection Hexec as <-. simpl.
      rewrite fmap_app, sum_list_with_app. simpl. lia.
    + destruct (WaitGroup.Wait (wg_counter s)); [|done].
      injection Hexec as <-. simpl. lia.
    + injection Hexec as <-. simpl. lia.
    + done.
  - destruct (wg_workers s !! k) as [[body [n|]]|] eqn:Hk; try done.
    destruct (body !! n) as [line|] eqn:Hn.
    + injection Hexec as <-. simpl.
      pose proof (sum_update wg_task_todo (wg_workers s) k _
                    (body, At (S n)) Hk) as Hsum.
      apply lookup_lt_Some in Hn.
      unfold wg_task_todo in Hsum at 2 4. simpl in Hsum. lia.
    + destruct (WaitGroup.Done (wg_counter s)); injection Hexec as <-;
        simpl in *; [|done].
      pose proof (sum_update wg_task_todo (wg_workers s) k _
                    (body, Ended) Hk) as Hsum.
      unfold wg_task_todo in Hsum at 2 4. simpl in Hsum. lia.
Qed.

Lemma wg_progress s :
  wg_inv bodies final s →
  wg_main s = WgEnd ∨ ∃ l s', wg_exec final l s = Some s'.
Proof.
  intros [Hmain Hcnt Hpan _].
  destruct (wg_main s) as [[|body rest]|body rest| | |] eqn:Hm.
  - right. exists WgMain. unfold wg_exec. rewrite Hpan, Hm. eauto.
  - right. exists WgMain. unfold wg_exec. rewrite Hpan, Hm.
    destruct (WaitGroup.Add 1 (wg_counter s)); eauto.
  - right. exists WgMain. unfold wg_exec. rewrite Hpan, Hm. eauto.
  - right. destruct (decide (wg_counter s = 0%Z)) as [Hz|Hz].
    + exists WgMain. unfold wg_exec, WaitGroup.Wait. rewrite Hpan, Hm.
      rewrite bool_decide_eq_true_2 by done. eauto.
    + destruct (sum_pos_lookup live (wg_workers s))
        as (k & [body pc] & Hk & Hlive); [simpl in Hcnt; lia|].
      destruct pc as [n|]; [|unfold live in Hlive; simpl in Hlive; lia].
      exists (WgWorker k). unfold wg_exec. rewrite Hpan, Hk.
      destruct (body !! n); [eauto|].
      destruct (WaitGroup.Done (wg_counter s)); eauto.
  - right. exists WgMain. unfold wg_exec. rewrite Hpan, Hm. eauto.
  - by left.
Qed.

Lemma wg_can_finish s :
  wg_inv bodies final s →
  ∃ sched s', run_with (wg_exec final) sched s = Some s' ∧ wg_main s' = WgEnd.
Proof.
  remember (wg_todo s) as n eqn:Hn. revert s Hn.
  induction (lt_wf n) as [n _ IH]. intros s -> Hinv.
  destruct (wg_progress s Hinv) as [Hend|(l & s1 & Hexec)].
  - by exists [], s.
  - pose proof (wg_inv_exec bodies final l s s1 Hinv Hexec) as Hinv1.
    pose proof (wg_todo_exec l s s1 Hexec (wgi_panicked _ _ _ Hinv1)) as Hlt.
    destruct (IH _ Hlt s1 eq_refl Hinv1) as (sched & s' & Hrun & Hend).
    exists (l :: sched), s'. split; [|done]. simpl. by rewrite Hexec.
Qed.

Lemma printed_submseteq (ws : list (list string * task_pc)) :
  ws ≫= printed ⊆+ mjoin ws.*1.
Proof.
  induction ws as [|[body pc] ws IH]; [done|].
  rewrite bind_cons, fmap_cons. simpl. apply submseteq_app; [|done].
  destruct pc as [n|]; unfold printed; simpl; [|done].
  apply sublist_submseteq, sublist_take.
Qed.

Lemma printed_ended (ws : list (list string * task_pc)) :
  Forall (λ w, w.2 = Ended) ws → ws ≫= printed = mjoin ws.*1.
Proof.
  induction 1 as [|[body pc] ws Hw _ IH]; [done|].
  rewrite bind_cons, fmap_cons. simpl in *. subst pc. by rewrite IH.
Qed.

Lemma wg_workers_prefix s :
  wg_inv bodies final s → (wg_workers s).*1 `prefix_of` bodies.
Proof.
  intros [Hmain _ _ _]. unfold wg_main_ok in Hmain.
  destruct (wg_main s); destruct_and?; subst bodies;
    try done; by apply prefix_app_r.
Qed.

End WaitGroupLiveness.

(** ** What the samples guarantee *)

Example WgProcessMultipleFileExample_run :
  run_with (wg_exec WgProcessMultipleFileExample.2) sched_files
    (wg_start WgProcessMultipleFileExample.1)
  = Some state_files.
Proof. reflexivity. Qed.

Example WaitGroupSampleOne_run :
  wg_stdout <$>
    run_with (wg_exec WaitGroupSampleOne.2)
      [WgMain; WgMain; WgMain; WgMain; WgMain; WgMain; WgMain; WgWorker 2;
       WgWorker 0; WgWorker 1; WgWorker 1; WgWorker 2; WgWorker 0; WgMain;
       WgMain]
      (wg_start WaitGroupSampleOne.1)
  = Some ["Worker 3 done"; "Worker 1 done"; "Worker 2 done";
          "All workers done!"]%string.
Proof. reflexivity. Qed.

Example WaitingForMultipleGoRoutinesToFinish_blocked :
  run_with (wg_exec WaitingForMultipleGoRoutinesToFinish.2)
    [WgMain; WgMain; WgMain; WgMain; WgMain; WgMain; WgMain; WgWorker 0;
     WgMain]
    (wg_start WaitingForMultipleGoRoutinesToFinish.1)
  = None.
Proof. reflexivity. Qed.

(** X5.  The WaitGroup of the samples is used soundly: the counter never
    goes negative, so no [Add] or [Done] panics, and it is at every moment
    the number of workers started and not yet done, plus one between an
    [Add(1)] and the [go] statement after it. *)
Theorem wait_group_counter_balanced bodies final sched s :
  run_with (wg_exec final) sched (wg_start bodies) = Some s →
  wg_panicked s = false
  ∧ (0 ≤ wg_counter s)%Z
  ∧ wg_counter s
    = Z.of_nat (sum_list (live <$> wg_workers s) + pending (wg_main s)).
Proof.
  intros Hrun.
  destruct (wg_inv_reachable bodies final sched s Hrun) as [_ Hcnt Hpan _].
  split_and!; [done|lia|done].
Qed.

Lemma wait_group_counter_balanced_witness :
  let bodies := WgProcessMultipleFileExample.1 in
  let final := WgProcessMultipleFileExample.2 in
  let sched := [WgMain; WgMain; WgMain; WgMain; WgWorker 0; WgWorker 0;
                WgWorker 0; WgMain] in
  let s := WgState 2 false
             (WgGo ["Processing c.txt"; "Done with c.txt"] [])
             [(["Processing a.txt"; "Done with a.txt"], Ended);
              (["Processing b.txt"; "Done with b.txt"], At 0)]
             ["Processing a.txt"; "Done with a.txt"] in
  run_with (wg_exec final) sched (wg_start bodies) = Some s
  ∧ (wg_panicked s = false
     ∧ (0 ≤ wg_counter s)%Z
     ∧ wg_counter s
       = Z.of_nat (sum_list (live <$> wg_workers s) + pending (wg_main s))).
Proof.
  split; [reflexivity|].
  apply (wait_group_counter_balanced WgProcessMultipleFileExample.1
           WgProcessMultipleFileExample.2
           [WgMain; WgMain; WgMain; WgMain; WgWorker 0; WgWorker 0;
            WgWorker 0; WgMain]).
  reflexivity.
Defined.

(** X6.  The last line comes last.  What a sample has printed is lines of
    its workers, each worker's lines in their order, followed by the last
    line once the function has ended; and when it has ended every worker has
    printed all its lines and has ended: the output is then the lines of
    all the workers in some interleaving, then the last line. *)
Theorem last_line_after_all_workers bodies final sched s :
  run_with (wg_exec final) sched (wg_start bodies) = Some s →
  ∃ lines,
    wg_stdout s = lines ++ last_line final (wg_main s)
    ∧ lines ⊆+ mjoin bodies
    ∧ Forall (λ w, printed w `sublist_of` lines) (wg_workers s)
    ∧ (wg_main s = WgEnd →
       lines ≡ₚ mjoin bodies
       ∧ Forall (λ body, body `sublist_of` lines) bodies
       ∧ Forall (λ w, w.2 = Ended) (wg_workers s)).
Proof.
  intros Hrun.
  pose proof (wg_inv_reachable bodies final sched s Hrun) as Hinv.
  pose proof (wg_workers_prefix bodies final s Hinv) as [rest Hrest].
  destruct Hinv as [Hmain _ _ (lines & Hout & Hperm & Hsub)].
  exists lines. split_and!; [done| |done|].
  - rewrite Hperm, Hrest. etrans; [apply printed_submseteq|].
    rewrite join_app. by apply submseteq_inserts_r.
  - intros Hend. unfold wg_main_ok in Hmain. rewrite Hend in Hmain.
    destruct Hmain as [Hbodies Hended]. split_and!; [| |done].
    + by rewrite Hperm, printed_ended, Hbodies.
    + rewrite <-Hbodies. apply Forall_fmap, Forall_lookup.
      intros k [body pc] Hk.
      pose proof (Forall_lookup_1 _ _ _ _ Hsub Hk) as Hw.
      pose proof (Forall_lookup_1 _ _ _ _ Hended Hk) as Hpc.
      simpl in *. by subst pc.
Qed.

Lemma last_line_after_all_workers_witness :
  let bodies := WgProcessMultipleFileExample.1 in
  let final := WgProcessMultipleFileExample.2 in
  run_with (wg_exec final) sched_files (wg_start bodies) = Some state_files
  ∧ ∃ lines,
      wg_stdout state_files = lines ++ last_line final (wg_main state_files)
      ∧ lines ⊆+ mjoin bodies
      ∧ Forall (λ w, printed w `sublist_of` lines) (wg_workers state_files)
      ∧ (wg_main state_files = WgEnd →
         lines ≡ₚ mjoin bodies
         ∧ Forall (λ body, body `sublist_of` lines) bodies
         ∧ Forall (λ w, w.2 = Ended) (wg_workers state_files)).
Proof.
  split; [reflexivity|].
  apply (last_line_after_all_workers WgProcessMultipleFileExample.1
           WgProcessMultipleFileExample.2 sched_files state_files).
  reflexivity.
Defined.

(** X7.  The samples always end, and leave no goroutine behind.  Until the
    last line is printed some goroutine can act, so [wg.Wait()] never
    blocks for ever; every action lowers [wg_todo], which starts at three
    per worker plus its lines, plus three, so no run is longer than that;
    and from every state the end can be reached, where every worker has
    ended and the counter is zero. *)
Theorem spawn_and_wait_ends bodies final sched s :
  run_with (wg_exec final) sched (wg_start bodies) = Some s →
  (wg_main s = WgEnd ∨ ∃ l s', wg_exec final l s = Some s')
  ∧ (∀ l s', wg_exec final l s = Some s' → wg_todo s' < wg_todo s)
  ∧ wg_todo (wg_start bodies) = length (mjoin bodies) + 3 * length bodies + 3
  ∧ (∃ sched' s',
       run_with (wg_exec final) sched' s = Some s' ∧ wg_main s' = WgEnd
       ∧ Forall (λ w, w.2 = Ended) (wg_workers s') ∧ wg_counter s' = 0%Z).
Proof.
  intros Hrun.
  pose proof (wg_inv_reachable bodies final sched s Hrun) as Hinv.
  split_and!.
  - by eapply wg_progress.
  - intros l s' Hexec. apply (wg_todo_exec final l); [done|].
    by destruct (wg_inv_exec bodies final l s s' Hinv Hexec).
  - unfold wg_todo. simpl. clear. induction bodies as [|body rest IH].
    + done.
    + rewrite fmap_cons. simpl. rewrite length_app. simpl in IH. lia.
  - destruct (wg_can_finish bodies final s Hinv)
      as (sched' & s' & Hrun' & Hend).
    exists sched', s'. split_and!; try done.
    + pose proof (run_with_inv _ _ (wg_inv_exec bodies final) sched' s s'
                    Hinv Hrun') as [Hmain _ _ _].
      unfold wg_main_ok in Hmain. rewrite Hend in Hmain. by destruct Hmain.
    + pose proof (run_with_inv _ _ (wg_inv_exec bodies final) sched' s s'
                    Hinv Hrun') as [Hmain Hcnt _ _].
      unfold wg_main_ok in Hmain. rewrite Hend in Hmain, Hcnt.
      destruct Hmain as [_ Hended]. rewrite Hcnt. simpl.
      assert (sum_list (live <$> wg_workers s') = 0) as ->; [|done].
      clear -Hended. induction Hended as [|[body pc] ws Hpc _ IH]; [done|].
      rewrite fmap_cons. simpl in *. subst pc.
      unfold live at 1. simpl. done.
Qed.

Lemma spawn_and_wait_ends_witness :
  let bodies := WgProcessMultipleFileExample.1 in
  let final := WgProcessMultipleFileExample.2 in
  let sched := [WgMain; WgMain; WgMain; WgMain; WgWorker 0; WgWorker 0;
                WgWorker 0; WgMain] in
  let s := WgState 2 false
             (WgGo ["Processing c.txt"; "Done with c.txt"] [])
             [(["Processing a.txt"; "Done with a.txt"], Ended);
              (["Processing b.txt"; "Done with b.txt"], At 0)]
             ["Processing a.txt"; "Done with a.txt"] in
  run_with (wg_exec final) sched (wg_start bodies) = Some s
  ∧ ((wg_main s = WgEnd ∨ ∃ l s', wg_exec final l s = Some s')
     ∧ (∀ l s', wg_exec final l s = Some s' → wg_todo s' < wg_todo s)
     ∧ wg_todo (wg_start bodies)
       = length (mjoin bodies) + 3 * length bodies + 3
     ∧ (∃ sched' s',
          run_with (wg_exec final) sched' s = Some s' ∧ wg_main s' = WgEnd
          ∧ Forall (λ w, w.2 = Ended) (wg_workers s')
          ∧ wg_counter s' = 0%Z)).
Proof.
  split; [reflexivity|].
  apply (spawn_and_wait_ends WgProcessMultipleFileExample.1
           WgProcessMultipleFileExample.2
           [WgMain; WgMain; WgMain; WgMain; WgWorker 0; WgWorker 0;
            WgWorker 0; WgMain]).
  reflexivity.
Defined.


(** * Loops that poll the context: proofs *)

Lemma run_with_app {S L : Type} (step : L → S → option S) sched1 sched2 s :
  run_with step (sched1 ++ sched2) s
  = run_with step sched1 s ≫= run_with step sched2.
Proof.
  revert s. induction sched1 as [|l sched1 IH]; intros s; simpl; [done|].
  by destruct (step l s).
Qed.

Section Poller.

Variable p : poller.

Lemma poll_ok_start c : poll_ok p (poll_start c).
Proof. split; [by exists 0 | done]. Qed.

Lemma poll_ok_exec l s s' :
  poll_ok p s → poll_exec p l s = Some s' → poll_ok p s'.
Proof.
  destruct s as [c pc lines]. intros [[n Hout] Hdone] Hexec.
  unfold poll_lines in Hout. simpl in *. destruct l; simpl in Hexec.
  - injection Hexec as <-. split; simpl.
    + exists n. unfold poll_lines. simpl.
      destruct pc; try done. destruct Hdone as [err ->]. exact Hout.
    + destruct pc; try done; by destruct c.
  - destruct pc; simpl in Hexec.
    + destruct c; injection Hexec as <-;
        (split; [|first [done | by eexists]]); exists n;
        unfold poll_lines; simpl; by rewrite Hout, !app_nil_r.
    + injection Hexec as <-. split; [|done]. exists (S n).
      unfold poll_lines. simpl.
      rewrite Hout, !app_nil_r. by rewrite <-replicate_S_end.
    + injection Hexec as <-. split; [|done]. exists n.
      unfold poll_lines. simpl. by rewrite Hout, !app_nil_r.
    + done.
Qed.

Lemma poll_todo_exec l s s' :
  is_Some (poll_ctx s) → poll_exec p l s = Some s' →
  is_Some (poll_ctx s')
  ∧ poll_steps [l] + poll_todo (poll_at s') = poll_todo (poll_at s).
Proof.
  destruct s as [c pc lines]. simpl. intros [err ->] Hexec.
  destruct l; simpl in Hexec.
  - injection Hexec as <-. simpl. by split; [eexists|].
  - destruct pc; simpl in Hexec; try done; injection Hexec as <-; simpl;
      by split; [eexists|].
Qed.

End Poller.

Example cancel_dowork_run :
  run_with (poll_exec cancel_dowork)
    [PollStep; PollStep; PollStep; PollCancel GoContext.DeadlineExceeded;
     PollStep; PollStep; PollStep; PollCancel GoContext.Canceled]
    (poll_start GoContext.WithTimeout)
  = Some (PollState (Some GoContext.DeadlineExceeded) PReturned
            ["doing cancel_dowork..."; "doing cancel_dowork...";
             "cancel_dowork cancelled: context deadline exceeded"]%string).
Proof. reflexivity. Qed.

(** X8.  What a polling loop prints: its working line some number of times
    and then, only when it returns, its cancellation line, once and last.
    It returns only when the context is done, and the line of
    [cancel_dowork] then names the error of the context, the cause that
    came first. *)
Theorem poller_output_shape p c sched s :
  run_with (poll_exec p) sched (poll_start c) = Some s →
  (∃ n, poll_stdout s = poll_lines p n s)
  ∧ (poll_at s = PReturned →
     ∃ err, poll_ctx s = Some err
            ∧ last (poll_stdout s) = Some (cancelled p (Some err)))
  ∧ (poll_ctx s = None → poll_at s = PSelect ∨ poll_at s = PDefault).
Proof.
  intros Hrun.
  assert (poll_ok p s) as [[n Hout] Hdone].
  { eapply (run_with_inv (poll_exec p) (poll_ok p)); [|apply poll_ok_start|
      exact Hrun].
    intros l s1 s2. apply poll_ok_exec. }
  split_and!.
  - by exists n.
  - intros Hret. rewrite Hret in Hdone. destruct Hdone as [err Herr].
    exists err. split; [done|]. rewrite Hout. unfold poll_lines.
    rewrite Hret, Herr. apply last_snoc.
  - intros Hc. destruct (poll_at s); try (by left); try (by right);
      rewrite Hc in Hdone; by destruct Hdone.
Qed.

Lemma poller_output_shape_witness :
  let sched := [PollStep; PollStep; PollStep;
                PollCancel GoContext.DeadlineExceeded;
                PollStep; PollStep; PollStep;
                PollCancel GoContext.Canceled] in
  let s := PollState (Some GoContext.DeadlineExceeded) PReturned
             ["doing cancel_dowork..."; "doing cancel_dowork...";
              "cancel_dowork cancelled: context deadline exceeded"] in
  run_with (poll_exec cancel_dowork) sched (poll_start GoContext.WithTimeout)
  = Some s
  ∧ ((∃ n, poll_stdout s = poll_lines cancel_dowork n s)
     ∧ (poll_at s = PReturned →
        ∃ err, poll_ctx s = Some err
               ∧ last (poll_stdout s)
                 = Some (cancelled cancel_dowork (Some err)))
     ∧ (poll_ctx s = None → poll_at s = PSelect ∨ poll_at s = PDefault)).
Proof.
  split; [reflexivity|].
  apply (poller_output_shape cancel_dowork GoContext.WithTimeout
           [PollStep; PollStep; PollStep;
            PollCancel GoContext.DeadlineExceeded;
            PollStep; PollStep; PollStep;
            PollCancel GoContext.Canceled]).
  reflexivity.
Defined.

(** X9.  A polling loop answers a cancellation within three of its own
    actions: once the context is done, every action of the loop brings it
    one closer to its return ([poll_todo]), whatever else is scheduled in
    between, so a schedule holds at most three more of them. *)
Theorem poller_returns_once_cancelled p s sched s' :
  is_Some (poll_ctx s) →
  run_with (poll_exec p) sched s = Some s' →
  poll_steps sched + poll_todo (poll_at s') = poll_todo (poll_at s)
  ∧ poll_steps sched ≤ 3
  ∧ is_Some (poll_ctx s').
Proof.
  intros Hc Hrun.
  assert (poll_steps sched + poll_todo (poll_at s') = poll_todo (poll_at s)
          ∧ is_Some (poll_ctx s')) as [Hsteps Hc'].
  { revert s Hc Hrun. induction sched as [|l sched IH]; intros s Hc Hrun;
      simpl in Hrun.
    - by simplify_eq.
    - destruct (poll_exec p l s) as [s1|] eqn:Hexec; [|done].
      destruct (poll_todo_exec p l s s1 Hc Hexec) as [Hc1 Hstep].
      destruct (IH s1 Hc1 Hrun) as [IH1 IH2]. split; [|done].
      unfold poll_steps in *. rewrite fmap_cons. simpl in *. lia. }
  split_and!; [done| |done].
  assert (poll_todo (poll_at s) ≤ 3) by (destruct (poll_at s); simpl; lia).
  lia.
Qed.

Lemma poller_returns_once_cancelled_witness :
  let s := PollState (Some GoContext.DeadlineExceeded) PDefault
             ["doing cancel_dowork..."%string] in
  let s' := PollState (Some GoContext.DeadlineExceeded) PReturned
              ["doing cancel_dowork..."; "doing cancel_dowork...";
               "cancel_dowork cancelled: context deadline exceeded"] in
  let sched := [PollStep; PollStep; PollCancel GoContext.Canceled;
                PollStep] in
  is_Some (poll_ctx s)
  ∧ run_with (poll_exec cancel_dowork) sched s = Some s'
  ∧ (poll_steps sched + poll_todo (poll_at s') = poll_todo (poll_at s)
     ∧ poll_steps sched ≤ 3
     ∧ is_Some (poll_ctx s')).
Proof.
  split; [by eexists|]. split; [reflexivity|].
  apply (poller_returns_once_cancelled cancel_dowork
           (PollState (Some GoContext.DeadlineExceeded) PDefault
              ["doing cancel_dowork..."%string])).
  - by eexists.
  - reflexivity.
Defined.

(** ** [CancelableWaitGroupPattern] *)

Lemma cancelable_inv_start : cancelable_inv CancelableWaitGroupPattern.
Proof. split; try done. by exists 0. Qed.

Lemma cancelable_inv_exec l s s' :
  cancelable_inv s → cancelable_exec l s = Some s' → cancelable_inv s'.
Proof.
  destruct s as [c cnt pan m w lines].
  intros [Hpan Hcnt Hw Hdone [n Hout]] Hexec.
  unfold cancelable_exec in Hexec. unfold cancelable_tail in Hout.
  simpl in *. subst pan.
  destruct l, m, w as [|[]|]; simpl in *; destruct_and?; simplify_eq;
    unfold WaitGroup.Wait, WaitGroup.Done, WaitGroup.Add in *; simpl in *;
    try done;
    repeat match goal with
      | H : context [match ?c with Some _ => _ | None => _ end] |- _ =>
          destruct c; simpl in H
      end;
    simplify_eq;
    (split; simpl; unfold cancelable_tail; simpl;
     [done | done | try done | first [done | by eexists] | ]).
  all: try (by split).
  all: try (exists n; simpl; rewrite ?app_nil_r; done).
  - exists n. by rewrite <-(assoc_L (++)).
  - exists (S n). by rewrite replicate_S_end, !app_nil_r.
  - exists (S n). by rewrite replicate_S_end, !app_nil_r.
Qed.

Lemma cancelable_inv_reachable sched s :
  run_with cancelable_exec sched CancelableWaitGroupPattern = Some s →
  cancelable_inv s.
Proof.
  apply (run_with_inv cancelable_exec cancelable_inv).
  - apply cancelable_inv_exec.
  - apply cancelable_inv_start.
Qed.

Lemma cancelable_todo_exec l s s' :
  cancelable_inv s → cancelable_exec l s = Some s' →
  l = CMain ∨ is_Some (c_ctx s) →
  cancelable_todo s' < cancelable_todo s.
Proof.
  destruct s as [c cnt pan m w lines].
  intros [Hpan Hcnt Hw Hdone _] Hexec Hl.
  unfold cancelable_exec in Hexec. simpl in *. subst pan.
  destruct l, m, w as [|[]|]; simpl in *; destruct_and?; simplify_eq;
    unfold WaitGroup.Wait, WaitGroup.Done, WaitGroup.Add in *; simpl in *;
    try done;
    repeat match goal with
      | H : context [match ?c with Some _ => _ | None => _ end] |- _ =>
          destruct c; simpl in H
      end;
    simplify_eq; unfold cancelable_todo; simpl; try lia.
  all: destruct Hl as [?|[? ?]]; done.
Qed.

Lemma cancelable_progress s :
  cancelable_inv s →
  c_main s = CEnd
  ∨ ∃ l s', cancelable_exec l s = Some s'
            ∧ (l = CMain ∨ is_Some (c_ctx s)).
Proof.
  destruct s as [c cnt pan m w lines].
  intros [Hpan Hcnt Hw Hdone _]. simpl in *. subst pan.
  destruct m; [right..|by left].
  - exists CMain. unfold cancelable_exec, WaitGroup.Add. simpl. subst cnt.
    simpl. eauto.
  - exists CMain. unfold cancelable_exec. simpl. eauto.
  - exists CMain. unfold cancelable_exec. simpl. eauto.
  - destruct Hw as [Hw ->]. destruct w as [|pc|]; [done| |].
    + exists CWorker. unfold cancelable_exec, WaitGroup.Done, WaitGroup.Add.
      simpl. subst cnt. destruct pc; simpl; eauto.
    + exists CMain. unfold cancelable_exec, WaitGroup.Wait. simpl.
      subst cnt. simpl. eauto.
  - exists CMain. unfold cancelable_exec. simpl. eauto.
Qed.

Lemma cancelable_can_finish s :
  cancelable_inv s →
  ∃ sched s', run_with cancelable_exec sched s = Some s' ∧ c_main s' = CEnd.
Proof.
  remember (cancelable_todo s) as n eqn:Hn. revert s Hn.
  induction (lt_wf n) as [n _ IH]. intros s -> Hinv.
  destruct (cancelable_progress s Hinv) as [Hend|(l & s1 & Hexec & Hl)].
  - by exists [], s.
  - pose proof (cancelable_todo_exec l s s1 Hinv Hexec Hl) as Hlt.
    destruct (IH _ Hlt s1 eq_refl) as (sched & s' & Hrun & Hend).
    { by eapply cancelable_inv_exec. }
    exists (l :: sched), s'. split; [|done]. simpl. by rewrite Hexec.
Qed.

(** As long as [cancel()] has not been called the loop goes on: after the
    first two actions of the function, any number of rounds of the loop. *)
Lemma cancelable_working n :
  run_with cancelable_exec
    ([CMain; CMain] ++ mjoin (replicate n [CWorker; CWorker]))
    CancelableWaitGroupPattern
  = Some (CancelableState None 1 false CCancel (InLoop PSelect)
            (replicate n "Working..."%string)).
Proof.
  induction n as [|n IH]; [done|].
  rewrite (replicate_S_end n "Working..."%string).
  rewrite replicate_S_end, join_app, (assoc_L (++)), run_with_app, IH.
  unfold cancelable_exec. simpl. by rewrite app_nil_r.
Qed.

Example CancelableWaitGroupPattern_run :
  run_with cancelable_exec
    [CMain; CMain; CWorker; CWorker; CWorker; CMain; CWorker; CWorker;
     CWorker; CWorker; CMain; CMain]
    CancelableWaitGroupPattern
  = Some (CancelableState (Some GoContext.Canceled) 0 false CEnd Finished
            ["Working..."; "Working..."; "Goroutine canceled.";
             "::: Done :::"]%string).
Proof. reflexivity. Qed.

(** X10.  The output of [CancelableWaitGroupPattern] is some number of
    [Working...] lines, then [Goroutine canceled.], then [::: Done :::],
    cut off where the run stands: the last line is printed only after the
    goroutine has printed its own and has ended, with the counter back at
    zero.  The WaitGroup never panics. *)
Theorem cancelable_output_order sched s :
  run_with cancelable_exec sched CancelableWaitGroupPattern = Some s →
  c_panicked s = false
  ∧ (∃ n, c_stdout s = replicate n "Working..."%string ++ cancelable_tail s)
  ∧ (c_main s = CEnd →
     c_worker s = Finished ∧ c_counter s = 0%Z
     ∧ c_ctx s = Some GoContext.Canceled
     ∧ ∃ n, c_stdout s
            = replicate n "Working..."%string
              ++ ["Goroutine canceled."; "::: Done :::"]%string).
Proof.
  intros Hrun.
  destruct (cancelable_inv_reachable sched s Hrun)
    as [Hpan Hcnt Hw _ [n Hout]].
  split_and!; [done|by exists n|].
  intros Hend. rewrite Hend in Hw, Hcnt. destruct Hw as [Hw Hc].
  rewrite Hw in Hcnt. split_and!; try done.
  exists n. rewrite Hout. unfold cancelable_tail. by rewrite Hend, Hw.
Qed.

Lemma cancelable_output_order_witness :
  let sched := [CMain; CMain; CWorker; CWorker; CWorker; CMain; CWorker;
                CWorker; CWorker; CWorker; CMain; CMain] in
  let s := CancelableState (Some GoContext.Canceled) 0 false CEnd Finished
             ["Working..."; "Working..."; "Goroutine canceled.";
              "::: Done :::"]%string in
  run_with cancelable_exec sched CancelableWaitGroupPattern = Some s
  ∧ (c_panicked s = false
     ∧ (∃ n, c_stdout s
             = replicate n "Working..."%string ++ cancelable_tail s)
     ∧ (c_main s = CEnd →
        c_worker s = Finished ∧ c_counter s = 0%Z
        ∧ c_ctx s = Some GoContext.Canceled
        ∧ ∃ n, c_stdout s
               = replicate n "Working..."%string
                 ++ ["Goroutine canceled."; "::: Done :::"]%string)).
Proof.
  split; [reflexivity|].
  apply (cancelable_output_order
           [CMain; CMain; CWorker; CWorker; CWorker; CMain; CWorker;
            CWorker; CWorker; CWorker; CMain; CMain]).
  reflexivity.
Defined.

(** X11.  [CancelableWaitGroupPattern] ends once [cancel()] is called, and
    not before.  It never deadlocks, and its end can be reached from every
    state.  Every action of the function itself, and every action at all
    once the context is done, lowers [cancelable_todo], which is then at
    most six: after [cancel()] at most six actions are left.  Before
    [cancel()] the loop is not bounded: for every [n] there is a run in
    which it prints [Working...] [n] times while the function stands at
    [cancel()]. *)
Theorem cancelable_ends_after_cancel sched s :
  run_with cancelable_exec sched CancelableWaitGroupPattern = Some s →
  (c_main s = CEnd ∨ ∃ l s', cancelable_exec l s = Some s')
  ∧ (∀ l s',
       cancelable_exec l s = Some s' → l = CMain ∨ is_Some (c_ctx s) →
       cancelable_todo s' < cancelable_todo s)
  ∧ (is_Some (c_ctx s) → cancelable_todo s ≤ 6)
  ∧ (∃ sched' s',
       run_with cancelable_exec sched' s = Some s' ∧ c_main s' = CEnd)
  ∧ (∀ n, ∃ sched0 s0,
       run_with cancelable_exec sched0 CancelableWaitGroupPattern = Some s0
       ∧ c_main s0 = CCancel
       ∧ c_stdout s0 = replicate n "Working..."%string).
Proof.
  intros Hrun. pose proof (cancelable_inv_reachable sched s Hrun) as Hinv.
  split_and!.
  - destruct (cancelable_progress s Hinv) as [?|(l & s' & ? & _)]; eauto.
  - intros l s'. by apply cancelable_todo_exec.
  - intros [err Hc]. destruct Hinv as [_ _ Hw _ _].
    unfold cancelable_todo.
    destruct (c_main s); destruct_and?; try congruence;
      destruct (c_worker s) as [|[]|]; simpl; try lia; done.
  - by apply cancelable_can_finish.
  - intros n. eexists _, _. split; [apply (cancelable_working n)|done].
Qed.

Lemma cancelable_ends_after_cancel_witness :
  let sched := [CMain; CMain; CWorker; CMain] in
  let s := CancelableState (Some GoContext.Canceled) 1 false CWait
             (InLoop PDefault) [] in
  run_with cancelable_exec sched CancelableWaitGroupPattern = Some s
  ∧ ((c_main s = CEnd ∨ ∃ l s', cancelable_exec l s = Some s')
     ∧ (∀ l s',
          cancelable_exec l s = Some s' → l = CMain ∨ is_Some (c_ctx s) →
          cancelable_todo s' < cancelable_todo s)
     ∧ (is_Some (c_ctx s) → cancelable_todo s ≤ 6)
     ∧ (∃ sched' s',
          run_with cancelable_exec sched' s = Some s' ∧ c_main s' = CEnd)
     ∧ (∀ n, ∃ sched0 s0,
          run_with cancelable_exec sched0 CancelableWaitGroupPattern
          = Some s0
          ∧ c_main s0 = CCancel
          ∧ c_stdout s0 = replicate n "Working..."%string)).
Proof.
  split; [reflexivity|].
  apply (cancelable_ends_after_cancel [CMain; CMain; CWorker; CMain]).
  reflexivity.
Defined.


(** * [GoroutineswithChannelsAndWaitGroup]: proofs *)

Lemma bind_remove {A B} (f : A → list B) (ws : list A) k w w' extra :
  ws !! k = Some w → f w = f w' ++ extra →
  ws ≫= f ≡ₚ (<[k:=w']> ws ≫= f) ++ extra.
Proof.
  intros Hk Hf. destruct (insert_split ws k w w' Hk) as (l1 & l2 & -> & ->).
  rewrite !bind_app, !bind_cons, Hf, <-!(assoc_L (++)).
  apply Permutation_app_head, Permutation_app_head, Permutation_app_comm.
Qed.

Lemma sum_running_all (ws : list (nat * fan_out_pc)) :
  sum_list (running <$> ws) = 0 → Forall (λ w, w.2 = JExit) ws.
Proof.
  induction ws as [|[id pc] ws IH]; [constructor|].
  rewrite fmap_cons. intros Hsum.
  change (running (id, pc) + sum_list (running <$> ws) = 0) in Hsum.
  constructor; [|apply IH; lia].
  destruct pc; unfold running at 1 in Hsum; simpl in *; try lia. done.
Qed.

Lemma sum_running_le (ws : list (nat * fan_out_pc)) :
  sum_list (running <$> ws) ≤ length ws.
Proof.
  induction ws as [|[id pc] ws IH]; [done|].
  rewrite fmap_cons.
  change (running (id, pc) + sum_list (running <$> ws) ≤ S (length ws)).
  destruct pc; unfold running at 1; simpl; lia.
Qed.

Lemma running_lookup (ws : list (nat * fan_out_pc)) k id pc :
  ws !! k = Some (id, pc) → pc ≠ JExit → 0 < sum_list (running <$> ws).
Proof.
  intros Hk Hpc.
  destruct (insert_split ws k _ (id, pc) Hk) as (l1 & l2 & -> & _).
  rewrite fmap_app, fmap_cons, sum_list_with_app.
  change (0 < sum_list (running <$> l1)
              + (running (id, pc) + sum_list (running <$> l2))).
  destruct pc; unfold running at 2; simpl; try lia. done.
Qed.

Lemma exited_running (ws : list (nat * fan_out_pc)) k w :
  ws !! k = Some (w, JExit) → sum_list (running <$> ws) < length ws.
Proof.
  intros Hk.
  destruct (insert_split ws k _ (w, JExit) Hk) as (l1 & l2 & -> & _).
  rewrite fmap_app, fmap_cons, sum_list_with_app, length_app.
  change (sum_list (running <$> l1)
          + (running (w, JExit) + sum_list (running <$> l2))
          < length l1 + S (length l2)).
  pose proof (sum_running_le l1). pose proof (sum_running_le l2).
  unfold running at 2. simpl. lia.
Qed.

Lemma exited_lookup (ws : list (nat * fan_out_pc)) k id pc :
  Forall (λ w, w.2 = JExit) ws → ws !! k = Some (id, pc) → pc = JExit.
Proof. intros Hall Hk. by apply (Forall_lookup_1 _ _ _ _ Hall Hk). Qed.

Section PoolInvariant.

Variable cfg : pool.

Lemma pool_inv_start : pool_inv cfg pool_start.
Proof.
  split; try done.
  - unfold pool_main_ok. simpl. lia.
  - simpl. lia.
  - simpl. intros. lia.
  - exists []. split; [done|]. apply not_elem_of_nil.
Qed.

Lemma seq_snoc n : seq 1 (S n) = seq 1 n ++ [S n].
Proof. by rewrite seq_S. Qed.

Ltac pool_easy lines :=
  split; unfold pool_main_ok; simpl;
  try done; try lia;
  try solve [split_and!; first [done | lia]];
  try (exists lines; rewrite ?app_nil_r in *; done).

Lemma pool_inv_main s s' :
  pool_inv cfg s → pool_exec cfg JMain s = Some s' → pool_inv cfg s'.
Proof.
  intros [Hmain Hpan Hcnt Hids Hjobs Hstarted Hbuf Hexited
            (lines & Hout & Hlines)] Hexec.
  unfold pool_exec in Hexec. rewrite Hpan in Hexec.
  unfold pool_main_ok in Hmain.
  destruct (j_main s) as [w|w|j| | | |] eqn:Hm; simpl in *.
  - (* first loop: test, Add *)
    destruct Hmain as (Hw & Hlen & Hcl). case_decide.
    + unfold WaitGroup.Add in Hexec. rewrite decide_True in Hexec by lia.
      injection Hexec as <-. pool_easy lines.
    + injection Hexec as <-. pool_easy lines.
  - (* go *)
    destruct Hmain as (Hw & Hlen & Hcl). injection Hexec as <-.
    pool_easy lines.
    + rewrite length_app. simpl. split_and!; [lia..|done].
    + rewrite fmap_app, sum_list_with_app. simpl. lia.
    + rewrite fmap_app, length_app, Hids. simpl. rewrite Nat.add_1_r.
      rewrite seq_snoc. do 2 f_equal. lia.
    + rewrite bind_app. simpl. by rewrite !app_nil_r.
    + rewrite bind_app. simpl. by rewrite !app_nil_r.
    + rewrite fmap_app, sum_list_with_app, length_app. simpl. intros Hlt.
      apply Hexited. lia.
  - (* second loop: test, send *)
    destruct Hmain as (Hj & Hlen & Hcl). rewrite Hcl in Hexec. case_decide.
    + case_decide; [|done]. injection Hexec as <-. pool_easy lines.
      * replace (j - 0) with (S (j - 1)) by lia. rewrite seq_snoc, Hjobs.
        replace (S (j - 1)) with j by lia.
        by rewrite <-!(assoc_L (++)).
      * rewrite length_app. simpl. lia.
      * intros Hlt. destruct (Hexited Hlt) as [Hcl' _]. congruence.
    + injection Hexec as <-. pool_easy lines.
      * by replace (numJobs cfg) with (j - 1) by lia.
      * intros Hlt. destruct (Hexited Hlt) as [Hcl' _]. congruence.
  - (* close *)
    destruct Hmain as (Hlen & Hcl). rewrite Hcl in Hexec.
    injection Hexec as <-. pool_easy lines.
    intros Hlt. destruct (Hexited Hlt) as [Hcl' _]. congruence.
  - (* wait *)
    destruct Hmain as (Hlen & Hcl). unfold WaitGroup.Wait in Hexec.
    case_bool_decide as Hz; [|done]. injection Hexec as <-.
    pool_easy lines.
    split_and!; try done. apply sum_running_all. lia.
  - (* print *)
    destruct Hmain as (Hlen & Hcl & Hall). injection Hexec as <-.
    rewrite app_nil_r in Hout. pool_easy lines.
    + rewrite bind_app. simpl. by rewrite !app_nil_r.
    + rewrite !bind_app. simpl. by rewrite !app_nil_r.
    + exists lines. by rewrite Hout.
  - done.
Qed.

Lemma pool_not_ended s k id pc :
  pool_main_ok cfg s → j_workers s !! k = Some (id, pc) → pc ≠ JExit →
  pool_last_line (j_main s) = [] ∧ j_main s ≠ JPrint ∧ j_main s ≠ JEnd.
Proof.
  unfold pool_main_ok. intros Hmain Hk Hpc.
  destruct (j_main s); try done; destruct Hmain as (_ & _ & Hall);
    by destruct (Hpc (exited_lookup _ _ _ _ Hall Hk)).
Qed.

(** What an action of worker [k] leaves as it is. *)
Lemma pool_update_frame s k id pc pc' n jobs lines :
  j_workers s !! k = Some (id, pc) → pc ≠ JExit →
  pool_main_ok cfg s → (j_workers s).*1 = seq 1 (length (j_workers s)) →
  let s' := PoolState n false (j_main s) (<[k:=(id, pc')]> (j_workers s))
              jobs (j_closed s) lines in
  pool_main_ok cfg s'
  ∧ (j_workers s').*1 = seq 1 (length (j_workers s')).
Proof.
  intros Hk Hpc Hmain Hids. simpl. split.
  - destruct (pool_not_ended s k id pc Hmain Hk Hpc) as (_ & Hnp & Hne).
    unfold pool_main_ok in *. simpl. rewrite length_insert.
    by destruct (j_main s).
  - rewrite length_insert. by erewrite fst_insert.
Qed.

Lemma pool_inv_worker k s s' :
  pool_inv cfg s → pool_exec cfg (JWorker k) s = Some s' → pool_inv cfg s'.
Proof.
  intros [Hmain Hpan Hcnt Hids Hjobs Hstarted Hbuf Hexited
            (lines & Hout & Hlines)] Hexec.
  unfold pool_exec in Hexec. rewrite Hpan in Hexec.
  destruct (j_workers s !! k) as [[id pc]|] eqn:Hk; [|done].
  destruct pc as [|j|j|]; [| | |done].
  - (* receive, or the end of the range *)
    destruct (pool_not_ended s k id _ Hmain Hk) as (Hlast & Hnp & Hne);
      [done|].
    destruct (j_jobs s) as [|j rest] eqn:Hjs.
    + destruct (j_closed s) eqn:Hcl; [|done].
      pose proof (running_lookup _ _ _ _ Hk) as Hpos.
      unfold WaitGroup.Done, WaitGroup.Add in Hexec.
      rewrite decide_True in Hexec by (specialize (Hpos ltac:(done)); lia).
      injection Hexec as <-.
      pose proof (sum_update running (j_workers s) k _ (id, JExit) Hk)
        as Hsum.
      unfold running at 2 4 in Hsum. simpl in Hsum.
      destruct (pool_update_frame s k id JRecv JExit (j_counter s + -1)%Z
                  [] (j_stdout s) Hk ltac:(done) Hmain Hids)
        as [Hmain' Hids'].
      rewrite Hcl in Hmain'.
      split; simpl; try done.
      * lia.
      * rewrite (bind_update held _ k _ _ [] Hk) by done.
        by rewrite !app_nil_r in *.
      * rewrite (bind_update busy _ k _ _ [] Hk) by done.
        by rewrite !app_nil_r in *.
      * by exists lines.
    + injection Hexec as <-.
      pose proof (sum_update running (j_workers s) k _ (id, JGot j) Hk)
        as Hsum.
      unfold running at 2 4 in Hsum. simpl in Hsum.
      destruct (pool_update_frame s k id JRecv (JGot j) (j_counter s)
                  rest (j_stdout s) Hk ltac:(done) Hmain Hids)
        as [Hmain' Hids'].
      split; simpl; try done.
      * lia.
      * rewrite (bind_update held _ k _ _ [j] Hk) by done.
        rewrite Hjobs. apply Permutation_app_head.
        rewrite <-(assoc_L (++)). by apply Permutation_app_head.
      * rewrite (bind_update busy _ k _ _ [] Hk) by done.
        by rewrite !app_nil_r in *.
      * simpl in Hbuf. lia.
      * rewrite length_insert. intros Hlt.
        destruct Hexited as [_ ?]; [lia|done].
      * by exists lines.
  - (* print "started" *)
    destruct (pool_not_ended s k id _ Hmain Hk) as (Hlast & Hnp & Hne);
      [done|].
    rewrite Hlast, app_nil_r in Hout. injection Hexec as <-.
    pose proof (sum_update running (j_workers s) k _ (id, JBusy j) Hk)
      as Hsum.
    unfold running at 2 4 in Hsum. simpl in Hsum.
    destruct (pool_update_frame s k id (JGot j) (JBusy j) (j_counter s)
                (j_jobs s) (j_stdout s ++ [StartedJob id j]) Hk
                ltac:(done) Hmain Hids)
      as [Hmain' Hids'].
    split; simpl; try done.
    + lia.
    + rewrite (bind_update held _ k _ _ [] Hk) by done.
      rewrite bind_app. simpl. by rewrite !app_nil_r in *.
    + rewrite (bind_update busy _ k _ _ [(id, j)] Hk) by done.
      rewrite !bind_app. simpl. rewrite !app_nil_r, Hstarted.
      by rewrite <-(assoc_L (++)).
    + rewrite length_insert. intros Hlt. apply Hexited. lia.
    + exists (lines ++ [StartedJob id j]). rewrite Hlast, app_nil_r, Hout.
      split; [done|]. rewrite elem_of_app, list_elem_of_singleton.
      by intros [?|?].
  - (* print "finished" *)
    destruct (pool_not_ended s k id _ Hmain Hk) as (Hlast & Hnp & Hne);
      [done|].
    rewrite Hlast, app_nil_r in Hout. injection Hexec as <-.
    pose proof (sum_update running (j_workers s) k _ (id, JRecv) Hk)
      as Hsum.
    unfold running at 2 4 in Hsum. simpl in Hsum.
    destruct (pool_update_frame s k id (JBusy j) JRecv (j_counter s)
                (j_jobs s) (j_stdout s ++ [FinishedJob id j]) Hk
                ltac:(done) Hmain Hids)
      as [Hmain' Hids'].
    split; simpl; try done.
    + lia.
    + rewrite Hjobs, bind_app, fmap_app. simpl.
      rewrite (bind_remove held _ k _ (id, JRecv) [j] Hk) by done.
      rewrite <-!(assoc_L (++)). apply Permutation_app_head.
      apply Permutation_app_swap_app.
    + rewrite !bind_app. simpl. rewrite !app_nil_r, Hstarted.
      rewrite (bind_remove busy _ k _ (id, JRecv) [(id, j)] Hk) by done.
      rewrite <-!(assoc_L (++)). apply Permutation_app_head.
      apply Permutation_app_comm.
    + rewrite length_insert. intros Hlt. apply Hexited. lia.
    + exists (lines ++ [FinishedJob id j]). rewrite Hlast, app_nil_r, Hout.
      split; [done|]. rewrite elem_of_app, list_elem_of_singleton.
      by intros [?|?].
Qed.

Lemma pool_inv_hand_off k s s' :
  pool_inv cfg s → pool_exec cfg (JHandOff k) s = Some s' → pool_inv cfg s'.
Proof.
  intros [Hmain Hpan Hcnt Hids Hjobs Hstarted Hbuf Hexited
            (lines & Hout & Hlines)] Hexec.
  unfold pool_exec in Hexec. rewrite Hpan in Hexec.
  destruct (j_main s) as [| |j| | | |] eqn:Hm; try done.
  destruct (j_workers s !! k) as [[id pc]|] eqn:Hk; [|done].
  destruct pc; try done. destruct (j_jobs s) eqn:Hjs; [|done].
  case_decide; [|done]. destruct (j_closed s) eqn:Hcl; [done|].
  injection Hexec as <-.
  pose proof (sum_update running (j_workers s) k _ (id, JGot j) Hk) as Hsum.
  unfold running at 2 4 in Hsum. simpl in Hsum.
  unfold pool_main_ok in Hmain. rewrite Hm in Hmain.
  destruct Hmain as (Hj & Hlen & _). simpl in *.
  split; unfold pool_main_ok; simpl; try done.
  - rewrite length_insert. split_and!; [lia..|done].
  - lia.
  - rewrite length_insert. by erewrite fst_insert.
  - replace (j - 0) with (S (j - 1)) by lia. rewrite seq_snoc, Hjobs.
    replace (S (j - 1)) with j by lia.
    rewrite (bind_update held _ k _ _ [j] Hk) by done.
    by rewrite !app_nil_r, <-!(assoc_L (++)).
  - rewrite (bind_update busy _ k _ _ [] Hk) by done.
    by rewrite !app_nil_r in *.
  - rewrite length_insert. intros Hlt.
    destruct Hexited as [? _]; [lia|done].
  - by exists lines.
Qed.

Lemma pool_inv_exec l s s' :
  pool_inv cfg s → pool_exec cfg l s = Some s' → pool_inv cfg s'.
Proof.
  destruct l; eauto using pool_inv_main, pool_inv_worker, pool_inv_hand_off.
Qed.

Lemma pool_inv_reachable sched s :
  run_with (pool_exec cfg) sched pool_start = Some s → pool_inv cfg s.
Proof.
  apply (run_with_inv (pool_exec cfg) (pool_inv cfg)).
  - apply pool_inv_exec.
  - apply pool_inv_start.
Qed.

End PoolInvariant.

Section PoolLiveness.

Variable cfg : pool.

Lemma pool_todo_exec l s s' :
  pool_inv cfg s → pool_exec cfg l s = Some s' →
  pool_todo cfg s' < pool_todo cfg s.
Proof.
  intros Hinv Hexec.
  pose proof (pi_panicked _ _ (pool_inv_exec cfg l s s' Hinv Hexec)) as Hpan'.
  destruct Hinv as [Hmain Hpan _ _ _ _ _ _ _].
  unfold pool_exec in Hexec. rewrite Hpan in Hexec.
  unfold pool_main_ok in Hmain. unfold pool_todo. destruct l.
  - destruct (j_main s) as [w|w|j| | | |] eqn:Hm; simpl in *.
    + case_decide.
      * destruct (WaitGroup.Add 1 (j_counter s)); injection Hexec as <-;
          simpl in *; [lia|done].
      * injection Hexec as <-. simpl. lia.
    + injection Hexec as <-. simpl.
      rewrite fmap_app, sum_list_with_app. simpl. lia.
    + case_decide.
      * destruct (j_closed s); [by injection Hexec as <-|].
        case_decide; [|done]. injection Hexec as <-. simpl.
        rewrite length_app. simpl. lia.
      * injection Hexec as <-. simpl. lia.
    + destruct (j_closed s); injection Hexec as <-; [done|]. simpl. lia.
    + destruct (WaitGroup.Wait (j_counter s)); [|done].
      injection Hexec as <-. simpl. lia.
    + injection Hexec as <-. simpl. lia.
    + done.
  - destruct (j_workers s !! k) as [[id pc]|] eqn:Hk; [|done].
    destruct pc as [|j|j|]; [| | |done].
    + destruct (j_jobs s) as [|j rest].
      * destruct (j_closed s); [|done].
        destruct (WaitGroup.Done (j_counter s)); injection Hexec as <-;
          [|done].
        pose proof (sum_update fan_out_todo (j_workers s) k _ (id, JExit)
                      Hk) as Hsum.
        unfold fan_out_todo at 2 4 in Hsum. simpl in *. lia.
      * injection Hexec as <-.
        pose proof (sum_update fan_out_todo (j_workers s) k _ (id, JGot j)
                      Hk) as Hsum.
        unfold fan_out_todo at 2 4 in Hsum. simpl in *. lia.
    + injection Hexec as <-.
      pose proof (sum_update fan_out_todo (j_workers s) k _ (id, JBusy j)
                    Hk) as Hsum.
      unfold fan_out_todo at 2 4 in Hsum. simpl in *. lia.
    + injection Hexec as <-.
      pose proof (sum_update fan_out_todo (j_workers s) k _ (id, JRecv)
                    Hk) as Hsum.
      unfold fan_out_todo at 2 4 in Hsum. simpl in *. lia.
  - destruct (j_main s) as [| |j| | | |] eqn:Hm; try done.
    destruct (j_workers s !! k) as [[id pc]|] eqn:Hk; [|done].
    destruct pc; try done. destruct (j_jobs s); [|done].
    case_decide; [|done]. destruct (j_closed s); [done|].
    injection Hexec as <-.
    pose proof (sum_update fan_out_todo (j_workers s) k _ (id, JGot j) Hk)
      as Hsum.
    unfold fan_out_todo at 2 4 in Hsum. simpl in *. lia.
Qed.

Lemma pool_jobs_le s :
  pool_inv cfg s → length (j_jobs s) ≤ sent_jobs cfg (j_main s).
Proof.
  intros Hinv. pose proof (pi_jobs _ _ Hinv) as Hjobs.
  apply Permutation_length in Hjobs.
  rewrite length_seq, !length_app in Hjobs. lia.
Qed.

(** A worker that has not ended can act, alone or, when it waits for a job
    that the function is about to send, with the function. *)
Lemma pool_worker_acts s k id pc :
  pool_inv cfg s → j_workers s !! k = Some (id, pc) → pc ≠ JExit →
  (j_closed s = true ∨ ∃ j, j_main s = JSend j ∧ j ≤ numJobs cfg) →
  ∃ l s', pool_exec cfg l s = Some s'.
Proof.
  intros Hinv Hk Hpc Hwhy.
  pose proof (running_lookup _ _ _ _ Hk Hpc) as Hpos.
  destruct Hinv as [Hmain Hpan Hcnt _ _ _ _ _ _].
  destruct pc as [|j|j|]; [| | |done].
  - destruct (j_jobs s) as [|j rest] eqn:Hjs.
    + destruct Hwhy as [Hcl|(j & Hm & Hj)].
      * exists (JWorker k). unfold pool_exec, WaitGroup.Done, WaitGroup.Add.
        rewrite Hpan, Hk, Hjs, Hcl. rewrite decide_True by lia. eauto.
      * exists (JHandOff k). unfold pool_exec.
        unfold pool_main_ok in Hmain. rewrite Hm in Hmain.
        destruct Hmain as (_ & _ & Hcl).
        rewrite Hpan, Hm, Hk, Hjs, Hcl. rewrite decide_True by done. eauto.
    + exists (JWorker k). unfold pool_exec. rewrite Hpan, Hk, Hjs. eauto.
  - exists (JWorker k). unfold pool_exec. rewrite Hpan, Hk. eauto.
  - exists (JWorker k). unfold pool_exec. rewrite Hpan, Hk. eauto.
Qed.

Lemma pool_progress s :
  pool_inv cfg s → 0 < numWorkers cfg ∨ numJobs cfg ≤ capacity cfg →
  j_main s = JEnd ∨ ∃ l s', pool_exec cfg l s = Some s'.
Proof.
  intros Hinv Hcfg. pose proof (pool_jobs_le s Hinv) as Hle.
  pose proof Hinv as [Hmain Hpan Hcnt _ _ _ _ Hexited _].
  unfold pool_main_ok in Hmain.
  destruct (j_main s) as [w|w|j| | | |] eqn:Hm; [right..|by left].
  - exists JMain. unfold pool_exec, WaitGroup.Add. rewrite Hpan, Hm.
    case_decide; [|eauto]. rewrite decide_True by lia. eauto.
  - exists JMain. unfold pool_exec. rewrite Hpan, Hm. eauto.
  - destruct Hmain as (Hj & Hlen & Hcl).
    destruct (decide (j ≤ numJobs cfg)) as [Hjn|Hjn];
      [destruct (decide (length (j_jobs s) < capacity cfg)) as [Hc|Hc]|].
    + exists JMain. unfold pool_exec. rewrite Hpan, Hm, Hcl.
      rewrite !decide_True by done. eauto.
    + simpl in Hle. destruct Hcfg as [Hw|Hn]; [|lia].
      destruct (j_workers s !! 0) as [[id pc]|] eqn:Hk.
      * assert (pc = JExit ∨ pc ≠ JExit) as [->|Hpc]
          by (destruct pc; auto).
        -- destruct Hexited as [Hcl' _]; [|congruence].
           by eapply exited_running.
        -- apply (pool_worker_acts s 0 id pc Hinv Hk Hpc). right. eauto.
      * apply lookup_ge_None_1 in Hk. lia.
    + exists JMain. unfold pool_exec. rewrite Hpan, Hm.
      rewrite decide_False by done. eauto.
  - destruct Hmain as (Hlen & Hcl).
    exists JMain. unfold pool_exec. rewrite Hpan, Hm, Hcl. eauto.
  - destruct Hmain as (Hlen & Hcl).
    destruct (decide (j_counter s = 0%Z)) as [Hz|Hz].
    + exists JMain. unfold pool_exec, WaitGroup.Wait. rewrite Hpan, Hm.
      rewrite bool_decide_eq_true_2 by done. eauto.
    + destruct (sum_pos_lookup running (j_workers s))
        as (k & [id pc] & Hk & Hrun); [simpl in Hcnt; lia|].
      apply (pool_worker_acts s k id pc Hinv Hk); [|by left].
      intros ->. unfold running in Hrun. simpl in Hrun. lia.
  - exists JMain. unfold pool_exec. rewrite Hpan, Hm. eauto.
Qed.

Lemma pool_can_finish s :
  pool_inv cfg s → 0 < numWorkers cfg ∨ numJobs cfg ≤ capacity cfg →
  ∃ sched s',
    run_with (pool_exec cfg) sched s = Some s' ∧ j_main s' = JEnd.
Proof.
  intros Hinv Hcfg. remember (pool_todo cfg s) as n eqn:Hn. revert s Hn Hinv.
  induction (lt_wf n) as [n _ IH]. intros s -> Hinv.
  destruct (pool_progress s Hinv Hcfg) as [Hend|(l & s1 & Hexec)].
  - by exists [], s.
  - pose proof (pool_todo_exec l s s1 Hinv Hexec) as Hlt.
    destruct (IH _ Hlt s1 eq_refl) as (sched & s' & Hrun & Hend).
    { by eapply pool_inv_exec. }
    exists (l :: sched), s'. split; [|done]. simpl. by rewrite Hexec.
Qed.

End PoolLiveness.

(** ** What the pool guarantees *)

Example GoroutineswithChannelsAndWaitGroup_run :
  run_with (pool_exec GoroutineswithChannelsAndWaitGroup) sched_pool
    pool_start
  = Some state_pool
  ∧ job_text <$> j_stdout state_pool
    = ["Worker 1 started job 1"; "Worker 2 started job 2";
       "Worker 1 finished job 1"; "Worker 3 started job 3";
       "Worker 2 finished job 2"; "Worker 1 started job 4";
       "Worker 3 finished job 3"; "Worker 2 started job 5";
       "Worker 1 finished job 4"; "Worker 2 finished job 5";
       "All jobs done"]%string.
Proof. split; reflexivity. Qed.

(** Without workers and with more jobs than the buffer holds, the function
    is stuck at a send: no action is enabled. *)
Example pool_without_workers_stuck :
  ∃ s,
    run_with (pool_exec (Pool 0 1 2)) [JMain; JMain] pool_start = Some s
    ∧ j_main s = JSend 2
    ∧ ∀ l, pool_exec (Pool 0 1 2) l s = None.
Proof.
  eexists. split_and!; [reflexivity..|]. by intros [|k|k].
Qed.

(** X12.  No job is lost and none is handled twice, at any moment and for
    any number of workers, buffer size and number of jobs: the jobs sent so
    far, [1] to the number sent, are exactly the jobs reported finished
    together with those a worker holds and those in the buffer, so no job
    number is finished twice; and the started lines are exactly the finished
    lines, same worker and job, together with the jobs started and not yet
    finished.  Nothing panics: no send on the closed channel, no second
    close, no negative counter. *)
Theorem jobs_neither_lost_nor_repeated cfg sched s :
  run_with (pool_exec cfg) sched pool_start = Some s →
  seq 1 (sent_jobs cfg (j_main s))
  ≡ₚ (j_stdout s ≫= finished).*2 ++ (j_workers s ≫= held) ++ j_jobs s
  ∧ NoDup ((j_stdout s ≫= finished).*2)
  ∧ j_stdout s ≫= started
    ≡ₚ (j_stdout s ≫= finished) ++ (j_workers s ≫= busy)
  ∧ j_panicked s = false.
Proof.
  intros Hrun.
  destruct (pool_inv_reachable cfg sched s Hrun)
    as [_ Hpan _ _ Hjobs Hstarted _ _ _].
  split_and!; try done.
  pose proof (NoDup_seq 1 (sent_jobs cfg (j_main s))) as Hnd.
  rewrite Hjobs in Hnd. by apply NoDup_app in Hnd as (? & _ & _).
Qed.

Lemma jobs_neither_lost_nor_repeated_witness :
  let cfg := GoroutineswithChannelsAndWaitGroup in
  let sched := [JMain; JMain; JMain; JMain; JMain; JMain; JMain;
                JHandOff 0; JMain; JMain; JWorker 1; JWorker 0] in
  let s := PoolState 3 false (JSend 4)
             [(1, JBusy 1); (2, JGot 2); (3, JRecv)] [3] false
             [StartedJob 1 1] in
  run_with (pool_exec cfg) sched pool_start = Some s
  ∧ (seq 1 (sent_jobs cfg (j_main s))
     ≡ₚ (j_stdout s ≫= finished).*2 ++ (j_workers s ≫= held) ++ j_jobs s
     ∧ NoDup ((j_stdout s ≫= finished).*2)
     ∧ j_stdout s ≫= started
       ≡ₚ (j_stdout s ≫= finished) ++ (j_workers s ≫= busy)
     ∧ j_panicked s = false).
Proof.
  split; [reflexivity|].
  apply (jobs_neither_lost_nor_repeated GoroutineswithChannelsAndWaitGroup
           [JMain; JMain; JMain; JMain; JMain; JMain; JMain;
            JHandOff 0; JMain; JMain; JWorker 1; JWorker 0]).
  reflexivity.
Defined.

Lemma held_exited (ws : list (nat * fan_out_pc)) :
  Forall (λ w, w.2 = JExit) ws → ws ≫= held = [] ∧ ws ≫= busy = [].
Proof.
  induction 1 as [|[id pc] ws Hpc _ [IH1 IH2]]; [done|].
  simpl in Hpc. subst pc. by rewrite !bind_cons, IH1, IH2.
Qed.

(** X13.  With at least one worker, [All jobs done] is the truth: when the
    function has ended, the output is the started and finished lines
    followed by that line, each job from 1 to the number of jobs is reported
    finished exactly once, every job started was finished by the worker
    that started it, the buffer is empty, and every worker has ended with
    the counter back at zero. *)
Theorem all_jobs_done_at_the_end cfg sched s :
  run_with (pool_exec cfg) sched pool_start = Some s →
  0 < numWorkers cfg → j_main s = JEnd →
  ∃ lines,
    j_stdout s = lines ++ [AllJobsDone]
    ∧ (AllJobsDone ∉ lines)
    ∧ snd <$> (lines ≫= finished) ≡ₚ seq 1 (numJobs cfg)
    ∧ (lines ≫= started) ≡ₚ (lines ≫= finished)
    ∧ j_jobs s = []
    ∧ Forall (λ w, w.2 = JExit) (j_workers s)
    ∧ j_counter s = 0%Z.
Proof.
  intros Hrun Hw Hend.
  destruct (pool_inv_reachable cfg sched s Hrun)
    as [Hmain _ Hcnt _ Hjobs Hstarted _ Hexited (lines & Hout & Hlines)].
  unfold pool_main_ok in Hmain. rewrite Hend in Hmain, Hcnt, Hjobs, Hout.
  destruct Hmain as (Hlen & Hcl & Hall).
  destruct (held_exited _ Hall) as [Hheld Hbusy].
  assert (sum_list (running <$> j_workers s) = 0) as Hrunning.
  { clear -Hall. induction Hall as [|[id pc] ws Hpc _ IH]; [done|].
    simpl in Hpc. subst pc. rewrite fmap_cons.
    change (running (id, JExit) + sum_list (running <$> ws) = 0).
    by rewrite IH. }
  destruct Hexited as [_ Hempty]; [lia|].
  rewrite Hheld, Hempty, !app_nil_r in Hjobs.
  rewrite Hbusy, app_nil_r in Hstarted.
  simpl in Hout. rewrite Hout in Hjobs, Hstarted.
  rewrite bind_app in Hjobs. rewrite !bind_app in Hstarted.
  simpl in Hjobs, Hstarted. rewrite !app_nil_r in Hjobs.
  rewrite !app_nil_r in Hstarted.
  exists lines. split_and!; try done.
  rewrite Hcnt, Hrunning. done.
Qed.

Lemma all_jobs_done_at_the_end_witness :
  let cfg := GoroutineswithChannelsAndWaitGroup in
  run_with (pool_exec cfg) sched_pool pool_start = Some state_pool
  ∧ 0 < numWorkers cfg
  ∧ j_main state_pool = JEnd
  ∧ ∃ lines,
      j_stdout state_pool = lines ++ [AllJobsDone]
      ∧ (AllJobsDone ∉ lines)
      ∧ snd <$> (lines ≫= finished) ≡ₚ seq 1 (numJobs cfg)
      ∧ (lines ≫= started) ≡ₚ (lines ≫= finished)
      ∧ j_jobs state_pool = []
      ∧ Forall (λ w, w.2 = JExit) (j_workers state_pool)
      ∧ j_counter state_pool = 0%Z.
Proof.
  split; [reflexivity|]. split; [simpl; lia|]. split; [reflexivity|].
  apply (all_jobs_done_at_the_end GoroutineswithChannelsAndWaitGroup
           sched_pool state_pool).
  - reflexivity.
  - simpl. lia.
  - reflexivity.
Defined.

(** X14.  When the buffer of [jobs] is as large as the number of jobs, as
    the 5 and 5 of the code, the function never waits at [jobs <- j]: in
    every state in which it stands at a send, the send can be done at
    once, whatever the workers have done so far. *)
Theorem send_never_blocks cfg sched s j :
  run_with (pool_exec cfg) sched pool_start = Some s →
  numJobs cfg ≤ capacity cfg →
  j_main s = JSend j → j ≤ numJobs cfg →
  pool_exec cfg JMain s
  = Some (PoolState (j_counter s) false (JSend (S j)) (j_workers s)
            (j_jobs s ++ [j]) false (j_stdout s)).
Proof.
  intros Hrun Hcap Hm Hj.
  pose proof (pool_inv_reachable cfg sched s Hrun) as Hinv.
  pose proof (pool_jobs_le cfg s Hinv) as Hle.
  destruct Hinv as [Hmain Hpan _ _ _ _ _ _ _].
  unfold pool_main_ok in Hmain. rewrite Hm in Hmain, Hle.
  destruct Hmain as (Hj1 & _ & Hcl). simpl in Hle.
  unfold pool_exec. rewrite Hpan, Hm, Hcl.
  by rewrite !decide_True by lia.
Qed.

Lemma send_never_blocks_witness :
  let cfg := GoroutineswithChannelsAndWaitGroup in
  let sched := [JMain; JMain; JMain; JMain; JMain; JMain; JMain;
                JMain; JMain; JMain; JMain] in
  let s := PoolState 3 false (JSend 5)
             [(1, JRecv); (2, JRecv); (3, JRecv)] [1; 2; 3; 4] false [] in
  run_with (pool_exec cfg) sched pool_start = Some s
  ∧ numJobs cfg ≤ capacity cfg
  ∧ j_main s = JSend 5 ∧ 5 ≤ numJobs cfg
  ∧ pool_exec cfg JMain s
    = Some (PoolState (j_counter s) false (JSend 6) (j_workers s)
              (j_jobs s ++ [5]) false (j_stdout s)).
Proof.
  split; [reflexivity|]. split; [simpl; lia|]. split; [reflexivity|].
  split; [simpl; lia|].
  apply (send_never_blocks GoroutineswithChannelsAndWaitGroup
           [JMain; JMain; JMain; JMain; JMain; JMain; JMain;
            JMain; JMain; JMain; JMain]).
  - reflexivity.
  - simpl. lia.
  - reflexivity.
  - simpl. lia.
Defined.

(** X15.  The pool always ends, and leaves no goroutine behind, provided it
    has a worker or a buffer that takes all the jobs (the code has both).
    Until the last line is printed some action is possible, so neither the
    sends nor [wg.Wait()] nor the workers' [range] block for ever; every
    action lowers [pool_todo], which starts at
    [3 * numWorkers + 4 * numJobs + 5]; and from every state the end can be
    reached, where every worker has ended: closing [jobs] ends each
    worker's [range]. *)
Theorem pool_always_ends cfg sched s :
  run_with (pool_exec cfg) sched pool_start = Some s →
  0 < numWorkers cfg ∨ numJobs cfg ≤ capacity cfg →
  (j_main s = JEnd ∨ ∃ l s', pool_exec cfg l s = Some s')
  ∧ (∀ l s', pool_exec cfg l s = Some s' →
             pool_todo cfg s' < pool_todo cfg s)
  ∧ pool_todo cfg pool_start = 3 * numWorkers cfg + 4 * numJobs cfg + 5
  ∧ (∃ sched' s',
       run_with (pool_exec cfg) sched' s = Some s' ∧ j_main s' = JEnd
       ∧ Forall (λ w, w.2 = JExit) (j_workers s')
       ∧ length (j_workers s') = numWorkers cfg).
Proof.
  intros Hrun Hcfg.
  pose proof (pool_inv_reachable cfg sched s Hrun) as Hinv.
  split_and!.
  - by apply pool_progress.
  - intros l s'. by apply pool_todo_exec.
  - unfold pool_todo. simpl. lia.
  - destruct (pool_can_finish cfg s Hinv Hcfg)
      as (sched' & s' & Hrun' & Hend).
    exists sched', s'. split_and!; try done.
    + pose proof (run_with_inv _ _ (pool_inv_exec cfg) sched' s s' Hinv
                    Hrun') as [Hmain _ _ _ _ _ _ _ _].
      unfold pool_main_ok in Hmain. rewrite Hend in Hmain.
      by destruct Hmain as (_ & _ & ?).
    + pose proof (run_with_inv _ _ (pool_inv_exec cfg) sched' s s' Hinv
                    Hrun') as [Hmain _ _ _ _ _ _ _ _].
      unfold pool_main_ok in Hmain. rewrite Hend in Hmain.
      by destruct Hmain as (? & _ & _).
Qed.

Lemma pool_always_ends_witness :
  let cfg := GoroutineswithChannelsAndWaitGroup in
  let sched := [JMain; JMain; JMain; JMain; JMain; JMain; JMain;
                JHandOff 0; JMain; JMain; JWorker 1; JWorker 0] in
  let s := PoolState 3 false (JSend 4)
             [(1, JBusy 1); (2, JGot 2); (3, JRecv)] [3] false
             [StartedJob 1 1] in
  run_with (pool_exec cfg) sched pool_start = Some s
  ∧ (0 < numWorkers cfg ∨ numJobs cfg ≤ capacity cfg)
  ∧ ((j_main s = JEnd ∨ ∃ l s', pool_exec cfg l s = Some s')
     ∧ (∀ l s', pool_exec cfg l s = Some s' →
                pool_todo cfg s' < pool_todo cfg s)
     ∧ pool_todo cfg pool_start
       = 3 * numWorkers cfg + 4 * numJobs cfg + 5
     ∧ (∃ sched' s',
          run_with (pool_exec cfg) sched' s = Some s' ∧ j_main s' = JEnd
          ∧ Forall (λ w, w.2 = JExit) (j_workers s')
          ∧ length (j_workers s') = numWorkers cfg)).
Proof.
  split; [reflexivity|]. split; [left; simpl; lia|].
  apply (pool_always_ends GoroutineswithChannelsAndWaitGroup
           [JMain; JMain; JMain; JMain; JMain; JMain; JMain;
            JHandOff 0; JMain; JMain; JWorker 1; JWorker 0]).
  - reflexivity.
  - left. simpl. lia.
Defined.
